(** * ycscrapper: listing traversal, deduplication, founder fetching, output

    A shallow embedding of [src/index.ts].  The Playwright driver is an
    external collaborator: it is modelled by the answers it gives (a scripted
    listing page, and an oracle for the detail pages), and the functions of
    the source are written over those answers.

    Text is a [string] (the bytes that end up in the output file); a JS
    [number] that only ever holds a scroll height or a retry counter is a
    [Z]; [undefined] and [null] are [None]. *)

From Stdlib Require Import String Ascii List ZArith Lia Bool Arith Permutation.
Import ListNotations.
Local Open Scope string_scope.
Local Open Scope Z_scope.

(** ** Data model (the two interfaces of the source) *)

Module Founder.
Record t := mk { name : string; links : list string }.
End Founder.

Module Company.
Record t := mk {
  name : string;
  location : string;
  link : string;
  founders : list Founder.t
}.
End Company.

(** The object the generator yields: [{ name, location, link }]. *)
Module Listing.
Record t := mk { name : string; location : string; link : string }.
End Listing.

(** JS truthiness of a value of type [string | undefined] (or [| null]). *)
Definition truthy (v : option string) : bool :=
  match v with
  | Some s => negb (s =? EmptyString)%string
  | None => false
  end.

(** A template literal prints [null] as the four letters. *)
Definition interpolate (v : option string) : string :=
  match v with
  | Some s => s
  | None => "null"
  end.

(** The line feed and the double quote, by their codes. *)
Definition LF : ascii := "010"%char.
Definition DQUOTE : ascii := "034"%char.
Definition newline : string := String LF EmptyString.

(** The constant of the source, and the two strings [main] builds from it:
    the url of the listing and the path of the output file. *)
Definition YC_BATCH : string := "W23".

Definition listing_url : string :=
  "https://www.ycombinator.com/companies?batch=" ++ YC_BATCH
  ++ "&regions=America%20%2F%20Canada&regions=Oceania&regions=United%20Kingdom&team_size=["
  ++ String DQUOTE ("1" ++ String DQUOTE ("," ++ String DQUOTE ("25" ++ String DQUOTE "]"))).

Definition output_path : string := "company_data_YC_" ++ YC_BATCH ++ ".json".

(** ** The listing page *)

(** One company element of the listing, by what the three queries of the
    loop body answer on it: the inner text of [._coName_lx3q7_454] (absent
    when the element is), the inner text of [._coLocation_lx3q7_470], and the
    [href] attribute. *)
Record CompanyElement := {
  coName : option string;
  coLocation : option string;
  href : option string
}.

(** What the page answers during one turn of the [do ... while]: whether
    [waitForSelector] resolves (it throws on timeout), the elements [$$]
    returns, and the [document.body.scrollHeight] read after scrolling. *)
Record Render := {
  selector_found : bool;
  companies : list CompanyElement;
  scrollHeight : Z
}.

(** The body of the inner [for] loop for one element: the record it yields,
    if any. *)
Definition scan_company (companyElement : CompanyElement) : option Listing.t :=
  let name := coName companyElement in
  let location := coLocation companyElement in
  let route := href companyElement in
  let link := "https://ycombinator.com" ++ interpolate route in
  if truthy name && truthy location && truthy (Some link) then
    match name, location with
    | Some name, Some location => Some (Listing.mk name location link)
    | _, _ => None
    end
  else None.

Fixpoint scan_companies (companies : list CompanyElement) : list Listing.t :=
  match companies with
  | [] => []
  | companyElement :: rest =>
      match scan_company companyElement with
      | Some y => y :: scan_companies rest
      | None => scan_companies rest
      end
  end.

(** How a run of the generator ends, with the records yielded so far and the
    number of turns whose elements were collected. *)
Inductive Traversal :=
| Halted (yielded : list Listing.t) (iterations : nat)
| Threw (yielded : list Listing.t) (iterations : nat)
| Pending (yielded : list Listing.t) (iterations : nat).

Definition after_turn (ys : list Listing.t) (t : Traversal) : Traversal :=
  match t with
  | Halted zs n => Halted (ys ++ zs) (S n)
  | Threw zs n => Threw (ys ++ zs) (S n)
  | Pending zs n => Pending (ys ++ zs) (S n)
  end.

(** The [do ... while] of [getCompanies], one [Render] per turn.  [Pending]
    is a loop that wants another turn when the script has none left. *)
Fixpoint getCompanies_from (page : list Render) (currentHeight : Z) : Traversal :=
  match page with
  | [] => Pending [] 0
  | r :: page' =>
      let previousHeight := currentHeight in
      if selector_found r then
        let ys := scan_companies (companies r) in
        let currentHeight := scrollHeight r in
        if currentHeight >? previousHeight then
          after_turn ys (getCompanies_from page' currentHeight)
        else Halted ys 1
      else Threw [] 0
  end.

Definition getCompanies (page : list Render) : Traversal :=
  getCompanies_from page 0.

(** ** The collector loop of [main] *)

Definition same_company (company : Listing.t) (c : Company.t) : bool :=
  (Company.name c =? Listing.name company)%string
  && (Company.location c =? Listing.location company)%string
  && (Company.link c =? Listing.link company)%string.

(** [{ ...company, founders: [] }] *)
Definition fresh_company (company : Listing.t) : Company.t :=
  Company.mk (Listing.name company) (Listing.location company)
             (Listing.link company) [].

(** The [Set<Company>] holds objects, each [add] is of a new object, and a
    set iterates in insertion order: it is the list of its insertions. *)
Definition collect_step (companyList : list Company.t) (company : Listing.t)
  : list Company.t :=
  match find (same_company company) companyList with
  | Some _ => companyList
  | None => companyList ++ [fresh_company company]
  end.

Definition collect (emissions : list Listing.t) : list Company.t :=
  fold_left collect_step emissions [].

(** The Identity Key of a canonical record: its three listing fields. *)
Definition listing_of (c : Company.t) : Listing.t :=
  Listing.mk (Company.name c) (Company.location c) (Company.link c).

Definition Listing_eq_dec (x y : Listing.t) : {x = y} + {x <> y}.
Proof. repeat decide equality. Defined.

(** ** The detail pages *)

(** One [.ycdc-card] element, by what the queries of the loop body answer on
    it: [font_bold] is the [textContent] of its [.font-bold] child (absent
    when there is no such child, [Some None] when the text is [null]);
    [space_x_2] is the [href] attribute of every [a] under its [.space-x-2]
    child (absent when there is no such child).  A detached card throws at
    the first query. *)
Inductive Card :=
| Card_dom (font_bold : option (option string))
           (space_x_2 : option (list (option string)))
| Card_detached.

(** What a page shows once sent to a url: [goto] throws, or the wait for
    [.ycdc-card] times out, or the cards that [$$] returns. *)
Inductive Visit :=
| NavigationError
| SelectorTimeout
| Loaded (cards : list Card).

(** The world outside the program: whether the n-th [browser.newPage()]
    resolves, and what page n shows at a url. *)
Record Web := {
  newPage_ok : nat -> bool;
  visit : nat -> string -> Visit
}.

(** The browser: how many pages were asked for, and the pages that are open
    with their current url.  A page is named by the rank of the call that
    opened it. *)
Record Browser := {
  newPage_calls : nat;
  open_pages : list (nat * string)
}.

Fixpoint url_of (p : nat) (pages : list (nat * string)) : option string :=
  match pages with
  | [] => None
  | (q, u) :: rest => if (q =? p)%nat then Some u else url_of p rest
  end.

Fixpoint set_url (p : nat) (url : string) (pages : list (nat * string))
  : list (nat * string) :=
  match pages with
  | [] => []
  | (q, u) :: rest =>
      if (q =? p)%nat then (q, url) :: rest else (q, u) :: set_url p url rest
  end.

Fixpoint drop_page (p : nat) (pages : list (nat * string))
  : list (nat * string) :=
  match pages with
  | [] => []
  | (q, u) :: rest =>
      if (q =? p)%nat then rest else (q, u) :: drop_page p rest
  end.

(** ** A state and exception monad for the driver calls

    An exception leaves the browser as the failing call left it: the state
    is threaded through [Thrown] as well. *)

Inductive Outcome (A : Type) :=
| Returned (a : A)
| Thrown.
Arguments Returned {A} a.
Arguments Thrown {A}.

Definition M (A : Type) : Type := Browser -> Outcome A * Browser.

Definition ret {A} (a : A) : M A := fun b => (Returned a, b).

Definition bind {A B} (m : M A) (k : A -> M B) : M B :=
  fun b =>
    match m b with
    | (Returned a, b') => k a b'
    | (Thrown, b') => (Thrown, b')
    end.

Definition lift {A} (o : Outcome A) : M A := fun b => (o, b).

Notation "x <- m ;; k" := (bind m (fun x => k))
  (at level 61, m at next level, right associativity).
Notation "m ;; k" := (bind m (fun _ => k))
  (at level 61, right associativity).

(** ** The driver calls of [getFoundersDataWithRetries] *)

Section Driver.

Variable web : Web.

Definition browser_newPage : M nat :=
  fun b =>
    let p := newPage_calls b in
    if newPage_ok web p then
      (Returned p,
       {| newPage_calls := S p;
          open_pages := (p, "about:blank") :: open_pages b |})
    else
      (Thrown, {| newPage_calls := S p; open_pages := open_pages b |}).

Definition page_goto (p : nat) (url : string) : M unit :=
  fun b =>
    match url_of p (open_pages b), visit web p url with
    | None, _ => (Thrown, b)
    | Some _, NavigationError => (Thrown, b)
    | Some _, _ =>
        (Returned tt,
         {| newPage_calls := newPage_calls b;
            open_pages := set_url p url (open_pages b) |})
    end.

Definition page_waitForSelector (p : nat) : M unit :=
  fun b =>
    match url_of p (open_pages b) with
    | Some url =>
        match visit web p url with
        | Loaded _ => (Returned tt, b)
        | _ => (Thrown, b)
        end
    | None => (Thrown, b)
    end.

Definition page_queryAll (p : nat) : M (list Card) :=
  fun b =>
    match url_of p (open_pages b) with
    | Some url =>
        match visit web p url with
        | Loaded cards => (Returned cards, b)
        | _ => (Thrown, b)
        end
    | None => (Thrown, b)
    end.

Definition page_close (p : nat) : M unit :=
  fun b =>
    (Returned tt,
     {| newPage_calls := newPage_calls b;
        open_pages := drop_page p (open_pages b) |}).

(** The inner loop over the anchors: [if (href) links.push(href)]. *)
Fixpoint push_hrefs (linkElements : list (option string)) (links : list string)
  : list string :=
  match linkElements with
  | [] => links
  | href :: rest =>
      push_hrefs rest
        (match href with
         | Some h => if truthy href then links ++ [h] else links
         | None => links
         end)%list
  end.

(** The loop over the cards, with [founderList] as it grows. *)
Fixpoint scan_cards (founders : list Card) (founderList : list Founder.t)
  : Outcome (list Founder.t) :=
  match founders with
  | [] => Returned founderList
  | Card_detached :: _ => Thrown
  | Card_dom nameElement socials :: rest =>
      let founderName :=
        match nameElement with Some text => text | None => None end in
      let linkElements := socials in
      match linkElements, founderName with
      | Some anchors, Some n =>
          if truthy founderName then
            scan_cards rest
              (founderList ++ [Founder.mk n (push_hrefs anchors [])])%list
          else scan_cards rest founderList
      | _, _ => scan_cards rest founderList
      end
  end.

(** The body of the [try] block: one attempt. *)
Definition attempt (companyLink : string) : M (option (list Founder.t)) :=
  newPage <- browser_newPage ;;
  page_goto newPage companyLink ;;
  page_waitForSelector newPage ;;
  founders <- page_queryAll newPage ;;
  founderList <- lift (scan_cards founders []) ;;
  page_close newPage ;;
  ret (if (0 <? length founderList)%nat then Some founderList else None).

(** The [while (retries < maxRetries)] loop.  [fuel] bounds the number of
    turns; [None] is a loop cut short by it. *)
Fixpoint retry_loop (fuel : nat) (companyLink : string)
    (maxRetries retries : Z) (browser : Browser)
  : option (option (list Founder.t) * Browser) :=
  if retries <? maxRetries then
    match fuel with
    | O => None
    | S fuel' =>
        match attempt companyLink browser with
        | (Returned founderData, browser') => Some (founderData, browser')
        | (Thrown, browser') =>
            retry_loop fuel' companyLink maxRetries (retries + 1) browser'
        end
    end
  else Some (None, browser).

Definition getFoundersDataWithRetries (browser : Browser)
    (companyLink : string) (maxRetries : Z)
  : option (option (list Founder.t) * Browser) :=
  retry_loop (Z.to_nat maxRetries) companyLink maxRetries 0 browser.

(** The default value of the third parameter. *)
Definition default_maxRetries : Z := 3.

End Driver.

(** ** [JSON.stringify] on a [Company] *)

Definition hex_digit (n : nat) : ascii :=
  nth n ["0"; "1"; "2"; "3"; "4"; "5"; "6"; "7"; "8"; "9";
         "a"; "b"; "c"; "d"; "e"; "f"]%char "0"%char.

(** One code unit inside a quoted string (QuoteJSONString of ECMA-262):
    the quote and the backslash are escaped, the control characters take
    their short escape or a [\u00xx], everything else is copied. *)
Definition quote_code_unit (c : ascii) : string :=
  let n := nat_of_ascii c in
  if (n =? 34)%nat then String "\" (String DQUOTE EmptyString)
  else if (n =? 92)%nat then "\\"
  else if (n =? 8)%nat then "\b"
  else if (n =? 12)%nat then "\f"
  else if (n =? 10)%nat then "\n"
  else if (n =? 13)%nat then "\r"
  else if (n =? 9)%nat then "\t"
  else if (n <? 32)%nat then
    "\u00" ++ String (hex_digit (n / 16)) (String (hex_digit (n mod 16)) EmptyString)
  else String c EmptyString.

Fixpoint quote_body (s : string) : string :=
  match s with
  | EmptyString => EmptyString
  | String c rest => quote_code_unit c ++ quote_body rest
  end.

Definition QuoteJSONString (s : string) : string :=
  String DQUOTE (quote_body s ++ String DQUOTE EmptyString).

Fixpoint join_comma (items : list string) : string :=
  match items with
  | [] => EmptyString
  | [x] => x
  | x :: rest => x ++ "," ++ join_comma rest
  end.

Definition stringify_array (items : list string) : string :=
  "[" ++ join_comma items ++ "]".

(** An object prints its own properties in the order they were created. *)
Definition stringify_object (properties : list (string * string)) : string :=
  "{" ++ join_comma (map (fun kv => QuoteJSONString (fst kv) ++ ":" ++ snd kv)
                         properties) ++ "}".

Definition stringify_founder (f : Founder.t) : string :=
  stringify_object
    [("name", QuoteJSONString (Founder.name f));
     ("links", stringify_array (map QuoteJSONString (Founder.links f)))].

(** The keys come in the order the object got them: the three of the
    yielded record, then [founders]. *)
Definition JSON_stringify (company : Company.t) : string :=
  stringify_object
    [("name", QuoteJSONString (Company.name company));
     ("location", QuoteJSONString (Company.location company));
     ("link", QuoteJSONString (Company.link company));
     ("founders",
      stringify_array (map stringify_founder (Company.founders company)))].

(** ** The enrichment loop and [main] *)

(** A write stream is the sequence of its [write] calls; the file holds
    them end to end. *)
Fixpoint file_of (stream : list string) : string :=
  match stream with
  | [] => EmptyString
  | chunk :: rest => chunk ++ file_of rest
  end.

Section Orchestrator.

Variable web : Web.

(** One turn of [for (const company of companyList)]: the record as the
    turn leaves it in the set, the stream and the browser. *)
Definition enrich_one (company : Company.t) (stream : list string)
    (browser : Browser)
  : option (Company.t * list string * Browser) :=
  match getFoundersDataWithRetries web browser (Company.link company)
          default_maxRetries with
  | None => None
  | Some (Some founderData, browser') =>
      let company' :=
        Company.mk (Company.name company) (Company.location company)
                   (Company.link company) founderData in
      Some (company',
            (stream ++ [(JSON_stringify company' ++ "," ++ newline)%string])%list,
            browser')
  | Some (None, browser') => Some (company, stream, browser')
  end.

Fixpoint enrich (companyList : list Company.t) (stream : list string)
    (browser : Browser)
  : option (list Company.t * list string * Browser) :=
  match companyList with
  | [] => Some ([], stream, browser)
  | company :: rest =>
      match enrich_one company stream browser with
      | None => None
      | Some (company', stream', browser') =>
          match enrich rest stream' browser' with
          | None => None
          | Some (rest', stream'', browser'') =>
              Some (company' :: rest', stream'', browser'')
          end
      end
  end.

(** [browser.close()] in the [finally] block. *)
Definition browser_close (browser : Browser) : Browser :=
  {| newPage_calls := newPage_calls browser; open_pages := [] |}.

(** What the run meets before the fetches: whether [webkit.launch()]
    resolves, whether [page.goto(url)] on the listing resolves, and the turns
    of the listing page. *)
Record Session := {
  launch_ok : bool;
  listing_goto_ok : bool;
  listing : list Render
}.

(** How a run ends: the file it wrote (path and bytes) and the set as the
    loop left it, or an exception caught before the file was opened (with
    the browser, if one was launched), or no end at all.  The browser is as
    the [finally] block leaves it. *)
Inductive Run :=
| Completed (path file : string) (companyList : list Company.t)
            (browser : Browser)
| Aborted (browser : option Browser)
| Unfinished.

Definition main (session : Session) : Run :=
  if launch_ok session then
    let browser := {| newPage_calls := 0; open_pages := [] |} in
    match browser_newPage web browser with
    | (Thrown, browser) => Aborted (Some (browser_close browser))
    | (Returned page, browser) =>
        if listing_goto_ok session then
          let browser :=
            {| newPage_calls := newPage_calls browser;
               open_pages := set_url page listing_url (open_pages browser) |} in
          match getCompanies (listing session) with
          | Halted emissions _ =>
              let companyList := collect emissions in
              let stream := ["[" ++ newline] in
              match enrich companyList stream browser with
              | Some (companyList', stream', browser') =>
                  Completed output_path (file_of (stream' ++ ["]"])%list)
                            companyList' (browser_close browser')
              | None => Unfinished
              end
          | Threw _ _ => Aborted (Some (browser_close browser))
          | Pending _ _ => Unfinished
          end
        else Aborted (Some (browser_close browser))
    end
  else Aborted None.

End Orchestrator.

(** The records of the set that the loop enriched. *)
Definition has_founders (c : Company.t) : bool :=
  match Company.founders c with
  | [] => false
  | _ :: _ => true
  end.

(** ** Strict JSON (RFC 8259), as a grammar over the bytes of a text

    A byte above the ASCII range belongs to a multi-byte character and is
    let through inside a string, so the grammar accepts every strict JSON
    text in UTF-8. *)

Local Close Scope string_scope.

Definition chars (s : string) : list ascii := list_ascii_of_string s.

Definition is_ws (c : ascii) : bool :=
  let n := nat_of_ascii c in
  ((n =? 32) || (n =? 9) || (n =? 10) || (n =? 13))%nat.

Definition is_digit (c : ascii) : bool :=
  let n := nat_of_ascii c in ((48 <=? n) && (n <=? 57))%nat.

Definition is_digit19 (c : ascii) : bool :=
  let n := nat_of_ascii c in ((49 <=? n) && (n <=? 57))%nat.

Definition is_hex (c : ascii) : bool :=
  let n := nat_of_ascii c in
  (((48 <=? n) && (n <=? 57)) || ((65 <=? n) && (n <=? 70))
   || ((97 <=? n) && (n <=? 102)))%nat.

Definition is_unescaped (c : ascii) : bool :=
  let n := nat_of_ascii c in
  ((32 <=? n) && negb (n =? 34) && negb (n =? 92))%nat.

Definition is_escape (c : ascii) : bool :=
  existsb (Ascii.eqb c) [DQUOTE; "\"; "/"; "b"; "f"; "n"; "r"; "t"]%char.

Definition json_ws (w : list ascii) : Prop := forallb is_ws w = true.

Definition json_digits (ds : list ascii) : Prop :=
  ds <> [] /\ forallb is_digit ds = true.

Inductive json_chars : list ascii -> Prop :=
| chars_end : json_chars []
| chars_plain c rest :
    is_unescaped c = true -> json_chars rest -> json_chars (c :: rest)
| chars_escape c rest :
    is_escape c = true -> json_chars rest ->
    json_chars ("\"%char :: c :: rest)
| chars_unicode h1 h2 h3 h4 rest :
    forallb is_hex [h1; h2; h3; h4] = true -> json_chars rest ->
    json_chars ("\"%char :: "u"%char :: h1 :: h2 :: h3 :: h4 :: rest).

Definition json_string (s : list ascii) : Prop :=
  exists body, json_chars body /\ s = DQUOTE :: body ++ [DQUOTE].

Definition json_int (s : list ascii) : Prop :=
  s = ["0"%char] \/
  exists d ds, is_digit19 d = true /\ forallb is_digit ds = true /\ s = d :: ds.

Definition json_frac (s : list ascii) : Prop :=
  s = [] \/ exists ds, json_digits ds /\ s = "."%char :: ds.

Definition json_exp (s : list ascii) : Prop :=
  s = [] \/
  exists e sign ds,
    (e = "e"%char \/ e = "E"%char) /\
    (sign = [] \/ sign = ["-"%char] \/ sign = ["+"%char]) /\
    json_digits ds /\ s = e :: sign ++ ds.

Definition json_number (s : list ascii) : Prop :=
  exists minus i f e,
    (minus = [] \/ minus = ["-"%char]) /\
    json_int i /\ json_frac f /\ json_exp e /\ s = minus ++ i ++ f ++ e.

Inductive json_value : list ascii -> Prop :=
| value_true : json_value (chars "true")
| value_false : json_value (chars "false")
| value_null : json_value (chars "null")
| value_string s : json_string s -> json_value s
| value_number s : json_number s -> json_value s
| value_empty_object w : json_ws w -> json_value ("{"%char :: w ++ ["}"%char])
| value_object ms : json_members ms -> json_value ("{"%char :: ms ++ ["}"%char])
| value_empty_array w : json_ws w -> json_value ("["%char :: w ++ ["]"%char])
| value_array es : json_elements es -> json_value ("["%char :: es ++ ["]"%char])
with json_elements : list ascii -> Prop :=
| elements_last w1 v w2 :
    json_ws w1 -> json_value v -> json_ws w2 -> json_elements (w1 ++ v ++ w2)
| elements_more w1 v w2 es :
    json_ws w1 -> json_value v -> json_ws w2 -> json_elements es ->
    json_elements (w1 ++ v ++ w2 ++ ","%char :: es)
with json_members : list ascii -> Prop :=
| members_last w1 k w2 w3 v w4 :
    json_ws w1 -> json_string k -> json_ws w2 ->
    json_ws w3 -> json_value v -> json_ws w4 ->
    json_members (w1 ++ k ++ w2 ++ ":"%char :: w3 ++ v ++ w4)
| members_more w1 k w2 w3 v w4 ms :
    json_ws w1 -> json_string k -> json_ws w2 ->
    json_ws w3 -> json_value v -> json_ws w4 -> json_members ms ->
    json_members (w1 ++ k ++ w2 ++ ":"%char :: w3 ++ v ++ w4 ++ ","%char :: ms).

Definition json_text (t : list ascii) : Prop :=
  exists w1 v w2,
    json_ws w1 /\ json_value v /\ json_ws w2 /\ t = w1 ++ v ++ w2.

Definition valid_JSON (file : string) : Prop := json_text (chars file).

(** The last byte of a text that is not white space. *)
Fixpoint last_token (s : list ascii) : option ascii :=
  match s with
  | [] => None
  | c :: rest =>
      match last_token rest with
      | Some t => Some t
      | None => if is_ws c then None else Some c
      end
  end.

(** ** What the properties are stated with *)

(** The three facts the loop keeps true, turn after turn. *)
Record collected (emissions : list Listing.t) (companyList : list Company.t)
  : Prop := {
  collected_nodup : NoDup (map listing_of companyList);
  collected_keys :
    forall k, In k (map listing_of companyList) <-> In k emissions;
  collected_fresh :
    forall c, In c companyList -> c = fresh_company (listing_of c)
}.

(** The line [main] writes for an enriched record. *)
Definition record_line (company : Company.t) : string :=
  (JSON_stringify company ++ "," ++ newline)%string.

(** ** Sample worlds *)

(** A site that refuses every navigation. *)
Definition offline : Web :=
  {| newPage_ok := fun _ => true; visit := fun _ _ => NavigationError |}.

(** A site whose first page fails to load and whose later pages show one
    card, named, with an empty links container. *)
Definition flaky : Web :=
  {| newPage_ok := fun _ => true;
     visit := fun p _ =>
       if (p =? 0)%nat then NavigationError
       else Loaded [Card_dom (Some (Some "Jo"%string)) (Some [])] |}.

(** A site whose first page fails to load and whose later pages show one
    card with no name. *)
Definition nameless : Web :=
  {| newPage_ok := fun _ => true;
     visit := fun p _ =>
       if (p =? 0)%nat then SelectorTimeout
       else Loaded [Card_dom None (Some [Some "https://x.com/jo"%string])] |}.

Definition launched : Browser := {| newPage_calls := 0; open_pages := [] |}.

(** A site whose pages show one card that has a name and no links
    container. *)
Definition bare : Web :=
  {| newPage_ok := fun _ => true;
     visit := fun _ _ => Loaded [Card_dom (Some (Some "Jo"%string)) None] |}.

(** A site where the page of company A shows one founder with one link
    and every other page fails to load. *)
Definition one_of_two : Web :=
  {| newPage_ok := fun _ => true;
     visit := fun _ url =>
       if (url =? "https://ycombinator.com/companies/a")%string
       then Loaded [Card_dom (Some (Some "Jo"%string))
                             (Some [Some "https://x.com/jo"%string])]
       else NavigationError |}.

(** A listing of three elements, the first two alike, that stops growing
    after the first scroll. *)
Definition listing_A : CompanyElement :=
  {| coName := Some "A"%string; coLocation := Some "LocX"%string;
     href := Some "/companies/a"%string |}.

Definition listing_B : CompanyElement :=
  {| coName := Some "B"%string; coLocation := Some "LocY"%string;
     href := Some "/companies/b"%string |}.

Definition short_listing : list Render :=
  [ {| selector_found := true;
       companies := [listing_A; listing_A; listing_B];
       scrollHeight := 900 |};
    {| selector_found := true;
       companies := [listing_A; listing_A; listing_B];
       scrollHeight := 900 |} ].

Definition short_session : Session :=
  {| launch_ok := true; listing_goto_ok := true; listing := short_listing |}.

Definition company_A (founders : list Founder.t) : Company.t :=
  Company.mk "A" "LocX" "https://ycombinator.com/companies/a" founders.

Definition company_B : Company.t :=
  Company.mk "B" "LocY" "https://ycombinator.com/companies/b" [].

Definition founder_Jo : Founder.t := Founder.mk "Jo" ["https://x.com/jo"%string].

(** ** What the further properties are stated with *)

(** What one turn yields. *)
Definition turn_yield (r : Render) : list Listing.t :=
  scan_companies (companies r).

(** Turns whose wait resolves and whose height is above the height before,
    starting from height [h]: the turns after which the loop goes on. *)
Fixpoint grows (h : Z) (turns : list Render) : bool :=
  match turns with
  | [] => true
  | r :: rest =>
      selector_found r && (scrollHeight r >? h) && grows (scrollHeight r) rest
  end.

(** The height the loop holds after some turns. *)
Definition height_after (h : Z) (turns : list Render) : Z :=
  fold_left (fun _ r => scrollHeight r) turns h.

(** The records a traversal yielded, however it ended. *)
Definition yielded_of (t : Traversal) : list Listing.t :=
  match t with
  | Halted ys _ => ys
  | Threw ys _ => ys
  | Pending ys _ => ys
  end.

(** The distinct emissions, each at the place of its first occurrence. *)
Definition first_emissions (emissions : list Listing.t) : list Listing.t :=
  rev (nodup Listing_eq_dec (rev emissions)).

(** A listing that only appends: every turn shows the elements of the turn
    before, followed by the new ones. *)
Fixpoint append_only (shown : list CompanyElement) (turns : list Render) : Prop :=
  match turns with
  | [] => True
  | r :: rest =>
      (exists added, companies r = shown ++ added)%list /\
      append_only (companies r) rest
  end.

(** The elements shown at the last of some turns. *)
Definition shown_after (shown : list CompanyElement) (turns : list Render)
  : list CompanyElement :=
  fold_left (fun _ r => companies r) turns shown.

(** The links one anchor contributes. *)
Definition kept_href (href : option string) : list string :=
  match href with
  | Some h => if (h =? EmptyString)%string then [] else [h]
  | None => []
  end.

(** A text with no control byte in it. *)
Definition printable (s : string) : Prop :=
  forallb (fun c => (32 <=? nat_of_ascii c)%nat) (chars s) = true.

(** A listing that grows twice and then stops, appending as it grows. *)
Definition growing_listing : list Render :=
  [ {| selector_found := true; companies := [listing_A]; scrollHeight := 400 |};
    {| selector_found := true; companies := [listing_A; listing_B];
       scrollHeight := 800 |};
    {| selector_found := true; companies := [listing_A; listing_B];
       scrollHeight := 800 |} ].

(** * Properties *)

(** ** The collector *)

Lemma same_company_spec (company : Listing.t) (c : Company.t) :
  same_company company c = true <-> listing_of c = company.
Proof.
  unfold same_company, listing_of.
  destruct company as [n l k], c as [cn cl ck cf]; simpl.
  rewrite !andb_true_iff, !String.eqb_eq.
  split.
  - intros [[-> ->] ->]; reflexivity.
  - intros H; injection H as -> -> ->; auto.
Qed.

Lemma collect_snoc (emissions : list Listing.t) (company : Listing.t) :
  collect (emissions ++ [company]) = collect_step (collect emissions) company.
Proof. unfold collect. rewrite fold_left_app. reflexivity. Qed.

Lemma collect_step_known (companyList : list Company.t) (company : Listing.t) :
  In company (map listing_of companyList) ->
  collect_step companyList company = companyList.
Proof.
  intros Hin. unfold collect_step.
  destruct (find (same_company company) companyList) eqn:Hfind; [reflexivity|].
  apply in_map_iff in Hin. destruct Hin as [c [Hc Hin]].
  apply (find_none _ _ Hfind) in Hin.
  apply same_company_spec in Hc. congruence.
Qed.

Lemma collect_step_new (companyList : list Company.t) (company : Listing.t) :
  ~ In company (map listing_of companyList) ->
  collect_step companyList company = companyList ++ [fresh_company company].
Proof.
  intros Hnew. unfold collect_step.
  destruct (find (same_company company) companyList) eqn:Hfind; [|reflexivity].
  apply find_some in Hfind. destruct Hfind as [Hin Hc].
  apply same_company_spec in Hc. exfalso. apply Hnew.
  rewrite <- Hc. now apply in_map.
Qed.

Lemma listing_of_fresh (company : Listing.t) :
  listing_of (fresh_company company) = company.
Proof. destruct company; reflexivity. Qed.

Lemma collect_collected (emissions : list Listing.t) :
  collected emissions (collect emissions).
Proof.
  induction emissions as [|company emissions IH] using rev_ind.
  - split; simpl; [constructor | tauto | tauto].
  - rewrite collect_snoc. destruct IH as [Hnd Hkeys Hfresh].
    destruct (in_dec Listing_eq_dec company (map listing_of (collect emissions)))
      as [Hin | Hnew].
    + rewrite (collect_step_known _ _ Hin). split; auto.
      intros k. rewrite Hkeys, in_app_iff. simpl.
      split; [tauto|]. intros [H | [<- | []]]; auto. now apply Hkeys.
    + rewrite (collect_step_new _ _ Hnew). split.
      * rewrite map_app. simpl. rewrite listing_of_fresh.
        apply NoDup_rev in Hnd. rewrite <- (rev_involutive (_ ++ _)).
        apply NoDup_rev. rewrite rev_app_distr. simpl.
        constructor; [|assumption]. now rewrite <- in_rev.
      * intros k. rewrite map_app, !in_app_iff, Hkeys. simpl.
        rewrite listing_of_fresh. tauto.
      * intros c Hc. apply in_app_iff in Hc. destruct Hc as [Hc | [<- | []]].
        -- now apply Hfresh.
        -- now rewrite listing_of_fresh.
Qed.

Lemma first_index (x : Listing.t) (l : list Listing.t) :
  In x l ->
  exists i, nth_error l i = Some x /\
            forall j, (j < i)%nat -> nth_error l j <> Some x.
Proof.
  induction l as [|a l IH]; [intros []|].
  intros Hin. destruct (Listing_eq_dec a x) as [-> | Hne].
  - exists O. split; [reflexivity|]. intros j Hj. lia.
  - destruct Hin as [-> | Hin]; [congruence|].
    destruct (IH Hin) as [i [Hi Hfirst]].
    exists (S i). split; [exact Hi|].
    intros [|j] Hj; simpl.
    + congruence.
    + apply Hfirst. lia.
Qed.

(** C1. For every finite sequence of emissions, the canonical set has as
    many records as the sequence has distinct (name, location, link) triples,
    it holds one record per triple, and the record of a triple carries the
    fields of the first emission of that triple with empty [founders]: a later
    emission of the same triple leaves the set as it is. *)
Theorem collect_first_wins (emissions : list Listing.t) :
  length (collect emissions) = length (nodup Listing_eq_dec emissions) /\
  NoDup (map listing_of (collect emissions)) /\
  (forall e, In e emissions -> In (fresh_company e) (collect emissions)) /\
  (forall c, In c (collect emissions) ->
     exists i,
       nth_error emissions i = Some (listing_of c) /\
       (forall j, (j < i)%nat -> nth_error emissions j <> Some (listing_of c)) /\
       Company.founders c = []) /\
  (forall e, In e emissions ->
     collect (emissions ++ [e]) = collect emissions).
Proof.
  destruct (collect_collected emissions) as [Hnd Hkeys Hfresh].
  repeat split.
  - rewrite <- (length_map listing_of).
    apply Permutation_length, NoDup_Permutation.
    + exact Hnd.
    + apply NoDup_nodup.
    + intros k. rewrite Hkeys, nodup_In. tauto.
  - exact Hnd.
  - intros e He. apply Hkeys in He. apply in_map_iff in He.
    destruct He as [c [Hc Hin]]. rewrite (Hfresh c Hin), Hc in Hin. exact Hin.
  - intros c Hc.
    assert (Hin : In (listing_of c) emissions)
      by (apply Hkeys; now apply in_map).
    destruct (first_index _ _ Hin) as [i [Hi Hfirst]].
    exists i. repeat split; auto.
    rewrite (Hfresh c Hc). reflexivity.
  - intros e He. rewrite collect_snoc. apply collect_step_known.
    now apply Hkeys.
Qed.

(** ** The listing traversal *)

(** The loop stops at the first turn whose height is not above the height
    of the turn before, and goes on otherwise. *)
Lemma getCompanies_from_turn (r : Render) (page : list Render) (h : Z) :
  selector_found r = true ->
  getCompanies_from (r :: page) h =
    if scrollHeight r >? h
    then after_turn (scan_companies (companies r))
                    (getCompanies_from page (scrollHeight r))
    else Halted (scan_companies (companies r)) 1.
Proof. intros Hfound. simpl. rewrite Hfound. reflexivity. Qed.

(** C2, as the code has it. With the heights 100, 250, 250 read after the
    first, second and third scroll (and the height 0 the loop starts from),
    the loop collects the elements three times and halts: 100 is above 0, 250
    is above 100, and the third reading, 250, is the first that is not above
    the one before.  After two turns the loop has not halted. *)
Theorem getCompanies_three_turns (c1 c2 c3 : list CompanyElement) :
  getCompanies [ {| selector_found := true; companies := c1; scrollHeight := 100 |};
                 {| selector_found := true; companies := c2; scrollHeight := 250 |};
                 {| selector_found := true; companies := c3; scrollHeight := 250 |} ]
  = Halted (scan_companies c1 ++ scan_companies c2 ++ scan_companies c3) 3
  /\
  getCompanies [ {| selector_found := true; companies := c1; scrollHeight := 100 |};
                 {| selector_found := true; companies := c2; scrollHeight := 250 |} ]
  = Pending (scan_companies c1 ++ scan_companies c2 ++ []) 2.
Proof. split; reflexivity. Qed.

(** C2, as stated, fails: on the readings 100, 250, 250 the loop does not
    halt after two collections. *)
Lemma getCompanies_not_two_turns :
  ~ exists yielded,
      getCompanies [ {| selector_found := true; companies := []; scrollHeight := 100 |};
                     {| selector_found := true; companies := []; scrollHeight := 250 |};
                     {| selector_found := true; companies := []; scrollHeight := 250 |} ]
      = Halted yielded 2.
Proof. intros [yielded H]. vm_compute in H. discriminate H. Qed.

(** An element with no name, or no location, is skipped. *)
Lemma scan_company_needs_name_and_location (e : CompanyElement) :
  truthy (coName e) = false \/ truthy (coLocation e) = false ->
  scan_company e = None.
Proof.
  unfold scan_company. intros [-> | ->]; [reflexivity|].
  rewrite andb_false_r. reflexivity.
Qed.

(** The test on [link] never fails: the string starts with the origin. *)
Lemma scan_company_link_always_truthy (e : CompanyElement) :
  truthy (Some ("https://ycombinator.com" ++ interpolate (href e))%string) = true.
Proof. reflexivity. Qed.


(** C6, at an element that has a name and a location and no [href]: the
    element is yielded, with a link made of the origin and the word null. *)
Theorem scan_company_without_href_is_yielded :
  scan_company {| coName := Some "A"%string; coLocation := Some "X"%string;
                  href := None |}
  = Some (Listing.mk "A" "X" "https://ycombinator.comnull").
Proof. reflexivity. Qed.

(** ** One attempt of the fetcher *)

(** One driver call on a page the attempt has just opened. *)
Ltac driver_step :=
  progress (cbn [open_pages newPage_calls url_of set_url drop_page];
            rewrite ?Nat.eqb_refl;
            try match goal with
                | H : visit _ _ _ = _ |- _ => rewrite H
                end).

Section FetcherFacts.

Variable web : Web.

(** What an attempt returns and how it leaves the browser, by the answers
    of the world to the page it opens. *)
Lemma attempt_run (companyLink : string) (b : Browser) :
  attempt web companyLink b =
    let p := newPage_calls b in
    if newPage_ok web p then
      match visit web p companyLink with
      | NavigationError =>
          (Thrown, {| newPage_calls := S p;
                      open_pages := (p, "about:blank"%string) :: open_pages b |})
      | SelectorTimeout =>
          (Thrown, {| newPage_calls := S p;
                      open_pages := (p, companyLink) :: open_pages b |})
      | Loaded cards =>
          match scan_cards cards [] with
          | Returned founderList =>
              (Returned (if (0 <? length founderList)%nat
                         then Some founderList else None),
               {| newPage_calls := S p; open_pages := open_pages b |})
          | Thrown =>
              (Thrown, {| newPage_calls := S p;
                          open_pages := (p, companyLink) :: open_pages b |})
          end
      end
    else (Thrown, {| newPage_calls := S p; open_pages := open_pages b |}).
Proof.
  unfold attempt, bind, browser_newPage, page_goto, page_waitForSelector,
    page_queryAll, page_close, lift, ret.
  cbv zeta.
  destruct (newPage_ok web (newPage_calls b)); [|reflexivity].
  destruct (visit web (newPage_calls b) companyLink) eqn:Hvisit;
    repeat driver_step; try reflexivity.
Qed.

(** Every attempt asks for one page. *)
Lemma attempt_calls (companyLink : string) (b : Browser) :
  newPage_calls (snd (attempt web companyLink b)) = S (newPage_calls b).
Proof.
  rewrite attempt_run. cbv zeta.
  destruct (newPage_ok web (newPage_calls b)); [|reflexivity].
  destruct (visit web (newPage_calls b) companyLink); try reflexivity.
  destruct (scan_cards cards []); reflexivity.
Qed.

(** An attempt that returns has closed its page, and a list it returns is
    not empty. *)
Lemma attempt_returned (companyLink : string) (b b' : Browser)
    (founderData : option (list Founder.t)) :
  attempt web companyLink b = (Returned founderData, b') ->
  open_pages b' = open_pages b /\ founderData <> Some [].
Proof.
  rewrite attempt_run. cbv zeta.
  destruct (newPage_ok web (newPage_calls b)); [|discriminate].
  destruct (visit web (newPage_calls b) companyLink); try discriminate.
  destruct (scan_cards cards []) as [fl|]; [|discriminate].
  intros H. injection H as <- <-. split; [reflexivity|].
  destruct fl; simpl; discriminate.
Qed.

(** An attempt that throws after its page was opened leaves the page open:
    [newPage.close()] stands in the [try] block only. *)
Lemma attempt_thrown_leaves_page_open (companyLink : string) (b b' : Browser) :
  newPage_ok web (newPage_calls b) = true ->
  attempt web companyLink b = (Thrown, b') ->
  exists url, open_pages b' = (newPage_calls b, url) :: open_pages b.
Proof.
  intros Hok. rewrite attempt_run. cbv zeta. rewrite Hok.
  destruct (visit web (newPage_calls b) companyLink).
  - intros H. injection H as <-. eexists. reflexivity.
  - intros H. injection H as <-. eexists. reflexivity.
  - destruct (scan_cards cards []); [discriminate|].
    intros H. injection H as <-. eexists. reflexivity.
Qed.

(** ** The retry loop *)

(** The loop ends within [maxRetries - retries] turns. *)
Lemma retry_loop_total (companyLink : string) (maxRetries : Z) (fuel : nat) :
  forall (retries : Z) (b : Browser),
    (Z.to_nat (maxRetries - retries) <= fuel)%nat ->
    exists founderData b',
      retry_loop web fuel companyLink maxRetries retries b
      = Some (founderData, b').
Proof.
  induction fuel as [|fuel IH]; intros retries b Hfuel; simpl.
  - destruct (retries <? maxRetries) eqn:Hlt; [|eauto].
    apply Z.ltb_lt in Hlt. lia.
  - destruct (retries <? maxRetries) eqn:Hlt; [|eauto].
    apply Z.ltb_lt in Hlt.
    destruct (attempt web companyLink b) as [[founderData|] b']; [eauto|].
    apply IH. lia.
Qed.

Lemma getFoundersDataWithRetries_total (b : Browser) (companyLink : string)
    (maxRetries : Z) :
  exists founderData b',
    getFoundersDataWithRetries web b companyLink maxRetries
    = Some (founderData, b').
Proof.
  apply retry_loop_total. rewrite Z.sub_0_r. lia.
Qed.

(** A list the loop returns is not empty. *)
Lemma retry_loop_nonempty (companyLink : string) (maxRetries : Z) (fuel : nat) :
  forall (retries : Z) (b b' : Browser),
    retry_loop web fuel companyLink maxRetries retries b <> Some (Some [], b').
Proof.
  induction fuel as [|fuel IH]; intros retries b b'; simpl.
  - destruct (retries <? maxRetries); discriminate.
  - destruct (retries <? maxRetries); [|discriminate].
    destruct (attempt web companyLink b) as [[founderData|] b1] eqn:Hrun.
    + apply attempt_returned in Hrun. destruct Hrun as [_ Hne]. congruence.
    + apply IH.
Qed.

(** When every attempt throws, the loop makes all the attempts it has
    left and returns [null]. *)
Lemma retry_loop_all_thrown (companyLink : string) (maxRetries : Z) :
  (forall b, fst (attempt web companyLink b) = Thrown) ->
  forall (fuel : nat) (retries : Z) (b : Browser),
    (Z.to_nat (maxRetries - retries) <= fuel)%nat ->
    exists b',
      retry_loop web fuel companyLink maxRetries retries b = Some (None, b') /\
      newPage_calls b' = (newPage_calls b + Z.to_nat (maxRetries - retries))%nat.
Proof.
  intros Hfail. induction fuel as [|fuel IH]; intros retries b Hfuel; simpl.
  - destruct (retries <? maxRetries) eqn:Hlt.
    + apply Z.ltb_lt in Hlt. lia.
    + apply Z.ltb_ge in Hlt. exists b. split; [reflexivity|].
      replace (Z.to_nat (maxRetries - retries)) with O by lia. lia.
  - destruct (retries <? maxRetries) eqn:Hlt.
    + apply Z.ltb_lt in Hlt.
      pose proof (Hfail b) as Hthrown. pose proof (attempt_calls companyLink b) as Hcalls.
      destruct (attempt web companyLink b) as [[founderData|] b1];
        [discriminate|]. simpl in Hcalls.
      destruct (IH (retries + 1) b1) as [b' [Hrun Hn]]; [lia|].
      exists b'. split; [exact Hrun|]. rewrite Hn, Hcalls. lia.
    + apply Z.ltb_ge in Hlt. exists b. split; [reflexivity|].
      replace (Z.to_nat (maxRetries - retries)) with O by lia. lia.
Qed.

End FetcherFacts.

(** ** The enrichment loop *)

Section WriterFacts.

Variable web : Web.

Lemma enrich_one_total (company : Company.t) (stream : list string)
    (b : Browser) :
  exists company' stream' b',
    enrich_one web company stream b = Some (company', stream', b').
Proof.
  unfold enrich_one.
  destruct (getFoundersDataWithRetries_total web b (Company.link company)
              default_maxRetries) as [founderData [b' ->]].
  destruct founderData; eauto.
Qed.

(** The loop reaches the end of the set, whatever the fetcher returns. *)
Lemma enrich_total (companyList : list Company.t) :
  forall (stream : list string) (b : Browser),
    exists companyList' stream' b',
      enrich web companyList stream b = Some (companyList', stream', b').
Proof.
  induction companyList as [|company rest IH]; intros stream b; simpl.
  - eauto.
  - destruct (enrich_one_total company stream b) as [c' [s1 [b1 ->]]].
    destruct (IH s1 b1) as [rest' [s2 [b2 ->]]]. eauto.
Qed.

Lemma enrich_app (front back : list Company.t) :
  forall (stream : list string) (b : Browser),
    enrich web (front ++ back) stream b =
      match enrich web front stream b with
      | Some (front', stream1, b1) =>
          match enrich web back stream1 b1 with
          | Some (back', stream2, b2) => Some (front' ++ back', stream2, b2)
          | None => None
          end
      | None => None
      end.
Proof.
  induction front as [|company front IH]; intros stream b; simpl.
  - destruct (enrich web back stream b) as [[[back' s2] b2]|]; reflexivity.
  - destruct (enrich_one web company stream b) as [[[c' s1] b1]|];
      [|reflexivity].
    rewrite IH.
    destruct (enrich web front s1 b1) as [[[front' s2] b2]|]; [|reflexivity].
    destruct (enrich web back s2 b2) as [[[back' s3] b3]|]; reflexivity.
Qed.

(** A turn writes at most once, and only ever appends. *)
Lemma enrich_one_stream (company company' : Company.t)
    (stream stream' : list string) (b b' : Browser) :
  enrich_one web company stream b = Some (company', stream', b') ->
  listing_of company' = listing_of company /\
  ((company' = company /\ stream' = stream) \/
   (has_founders company' = true /\
    stream' = stream ++ [(JSON_stringify company' ++ "," ++ newline)%string])).
Proof.
  unfold enrich_one.
  destruct (getFoundersDataWithRetries web b (Company.link company)
              default_maxRetries) as [[[founderData|] b1]|] eqn:Hfetch;
    [| |discriminate]; intros H; injection H as <- <- <-.
  - split; [reflexivity|]. right. split; [|reflexivity].
    destruct founderData; [|reflexivity].
    exfalso. revert Hfetch. apply retry_loop_nonempty.
  - split; [reflexivity|]. left. split; reflexivity.
Qed.

Lemma enrich_stream (companyList : list Company.t) :
  forall (companyList' : list Company.t) (stream stream' : list string)
         (b b' : Browser),
    enrich web companyList stream b = Some (companyList', stream', b') ->
    map listing_of companyList' = map listing_of companyList /\
    exists written,
      stream' = stream ++ written /\
      (length written <= length companyList)%nat /\
      (Forall (fun c => Company.founders c = []) companyList ->
       written = map (fun c => (JSON_stringify c ++ "," ++ newline)%string)
                     (filter has_founders companyList')).
Proof.
  induction companyList as [|company rest IH];
    intros companyList' stream stream' b b'; simpl.
  - intros H. injection H as <- <- <-. split; [reflexivity|].
    exists []. rewrite app_nil_r. auto.
  - destruct (enrich_one web company stream b) as [[[c' s1] b1]|] eqn:Hone;
      [|discriminate].
    destruct (enrich web rest s1 b1) as [[[rest' s2] b2]|] eqn:Hrest;
      [|discriminate].
    intros H. injection H as <- <- <-.
    apply IH in Hrest. destruct Hrest as [Hkeys [written [-> [Hlen Hw]]]].
    apply enrich_one_stream in Hone.
    destruct Hone as [Hkey [[-> ->] | [Hf ->]]].
    + split; [simpl; now rewrite Hkeys|].
      exists written. split; [reflexivity|]. split; [simpl; lia|].
      intros Hall. inversion Hall as [|? ? Hempty Hall']; subst.
      simpl. unfold has_founders at 1. rewrite Hempty. auto.
    + split; [simpl; now rewrite Hkey, Hkeys|].
      eexists. split; [rewrite <- app_assoc; reflexivity|].
      split; [simpl; lia|].
      intros Hall. inversion Hall as [|? ? Hempty Hall']; subst.
      simpl. rewrite Hf. simpl. f_equal. auto.
Qed.

End WriterFacts.

(** ** The fetcher *)

Section FetcherClaims.

Variable web : Web.

(** After [k] attempts that throw, an attempt that loads its cards ends the
    loop with what the cards give. *)
Lemma retry_loop_returns (companyLink : string) (maxRetries : Z)
    (cards : list Card) (founderList : list Founder.t) (k : nat) :
  scan_cards cards [] = Returned founderList ->
  forall (fuel : nat) (retries : Z) (b : Browser),
    (k < fuel)%nat ->
    retries + Z.of_nat k < maxRetries ->
    (forall b0, (newPage_calls b <= newPage_calls b0 < newPage_calls b + k)%nat ->
                fst (attempt web companyLink b0) = Thrown) ->
    newPage_ok web (newPage_calls b + k) = true ->
    visit web (newPage_calls b + k) companyLink = Loaded cards ->
    exists b',
      retry_loop web fuel companyLink maxRetries retries b =
        Some (if (0 <? length founderList)%nat then Some founderList else None,
              b') /\
      newPage_calls b' = S (newPage_calls b + k).
Proof.
  intros Hscan. induction k as [|k IH];
    intros fuel retries b Hfuel Hlt Hthrown Hok Hvisit.
  - destruct fuel as [|fuel]; [lia|]. simpl.
    replace (retries <? maxRetries) with true by (symmetry; apply Z.ltb_lt; lia).
    rewrite Nat.add_0_r in Hok, Hvisit.
    rewrite attempt_run. cbv zeta. rewrite Hok, Hvisit, Hscan.
    eexists. split; [reflexivity|]. simpl. lia.
  - destruct fuel as [|fuel]; [lia|]. simpl retry_loop.
    replace (retries <? maxRetries) with true by (symmetry; apply Z.ltb_lt; lia).
    pose proof (Hthrown b ltac:(lia)) as Hfirst.
    pose proof (attempt_calls web companyLink b) as Hcalls.
    destruct (attempt web companyLink b) as [[r|] b1] eqn:Hrun;
      [discriminate|]. simpl in Hcalls.
    destruct (IH fuel (retries + 1) b1) as [b' [Hloop Hn]]; try lia.
    + intros b0 Hb0. apply Hthrown. lia.
    + rewrite Hcalls. replace (S (newPage_calls b) + k)%nat
        with (newPage_calls b + S k)%nat by lia. exact Hok.
    + rewrite Hcalls. replace (S (newPage_calls b) + k)%nat
        with (newPage_calls b + S k)%nat by lia. exact Hvisit.
    + exists b'. split; [exact Hloop|]. lia.
Qed.

(** C3. When every attempt on a link throws, the fetcher makes exactly
    [maxRetries] attempts (one [browser.newPage()] each) and returns [null];
    with the default of three, the loop of [main] then leaves the record as
    it is, writes nothing for it, and goes on with the rest of the set. *)
Theorem exhausted_retries_return_null (companyLink : string) (maxRetries : Z)
    (b : Browser) (company : Company.t) (rest : list Company.t)
    (stream : list string) :
  (forall b0, fst (attempt web companyLink b0) = Thrown) ->
  0 <= maxRetries ->
  Company.link company = companyLink ->
  (exists b',
     getFoundersDataWithRetries web b companyLink maxRetries = Some (None, b') /\
     Z.of_nat (newPage_calls b') = Z.of_nat (newPage_calls b) + maxRetries) /\
  (exists b' rest' stream' b'',
     getFoundersDataWithRetries web b companyLink default_maxRetries
       = Some (None, b') /\
     newPage_calls b' = (newPage_calls b + 3)%nat /\
     enrich web rest stream b' = Some (rest', stream', b'') /\
     enrich web (company :: rest) stream b
       = Some (company :: rest', stream', b'')).
Proof.
  intros Hthrown Hpos Hlink. split.
  - destruct (retry_loop_all_thrown web companyLink maxRetries Hthrown
                (Z.to_nat maxRetries) 0 b) as [b' [Hrun Hn]].
    + rewrite Z.sub_0_r. lia.
    + exists b'. split; [exact Hrun|]. rewrite Hn, Z.sub_0_r. lia.
  - destruct (retry_loop_all_thrown web companyLink default_maxRetries Hthrown
                (Z.to_nat default_maxRetries) 0 b) as [b' [Hrun Hn]].
    + rewrite Z.sub_0_r. lia.
    + destruct (enrich_total web rest stream b') as [rest' [stream' [b'' Hrest]]].
      exists b', rest', stream', b''.
      split; [exact Hrun|]. split; [exact Hn|]. split; [exact Hrest|].
      simpl. unfold enrich_one. rewrite Hlink.
      unfold getFoundersDataWithRetries. rewrite Hrun, Hrest. reflexivity.
Qed.

(** C8. When the attempt that comes after [k] failed ones (with [k] below
    [maxRetries]) loads its cards and reads no person from them, the fetcher
    returns [null] at once, after [k + 1] attempts. *)
Theorem zero_persons_is_null (companyLink : string) (maxRetries : Z)
    (b : Browser) (k : nat) (cards : list Card) :
  Z.of_nat k < maxRetries ->
  (forall b0, (newPage_calls b <= newPage_calls b0 < newPage_calls b + k)%nat ->
              fst (attempt web companyLink b0) = Thrown) ->
  newPage_ok web (newPage_calls b + k) = true ->
  visit web (newPage_calls b + k) companyLink = Loaded cards ->
  scan_cards cards [] = Returned [] ->
  exists b',
    getFoundersDataWithRetries web b companyLink maxRetries = Some (None, b') /\
    newPage_calls b' = S (newPage_calls b + k).
Proof.
  intros Hk Hthrown Hok Hvisit Hscan.
  apply (retry_loop_returns companyLink maxRetries cards [] k Hscan
           (Z.to_nat maxRetries) 0 b); auto; lia.
Qed.

(** C10. With [maxRetries] at zero or below, the fetcher returns [null]
    and leaves the browser as it found it: no page was asked for. *)
Theorem no_retries_no_attempt (b : Browser) (companyLink : string)
    (maxRetries : Z) :
  maxRetries <= 0 ->
  getFoundersDataWithRetries web b companyLink maxRetries = Some (None, b).
Proof.
  intros Hle. unfold getFoundersDataWithRetries.
  replace (Z.to_nat maxRetries) with O by lia. simpl.
  replace (0 <? maxRetries) with false by (symmetry; apply Z.ltb_ge; lia).
  reflexivity.
Qed.

End FetcherClaims.

(** The fetcher and the loop at the site that refuses every navigation. *)
Lemma exhausted_retries_return_null_witness :
  (exists b',
     getFoundersDataWithRetries offline launched "l2" 3 = Some (None, b') /\
     Z.of_nat (newPage_calls b') = Z.of_nat (newPage_calls launched) + 3) /\
  (exists b' rest' stream' b'',
     getFoundersDataWithRetries offline launched "l2" default_maxRetries
       = Some (None, b') /\
     newPage_calls b' = (newPage_calls launched + 3)%nat /\
     enrich offline [Company.mk "C" "LocZ" "l3" []] ["["%string] b'
       = Some (rest', stream', b'') /\
     enrich offline [Company.mk "B" "LocY" "l2" []; Company.mk "C" "LocZ" "l3" []]
            ["["%string] launched
       = Some (Company.mk "B" "LocY" "l2" [] :: rest', stream', b'')).
Proof.
  apply (exhausted_retries_return_null offline "l2" 3 launched
           (Company.mk "B" "LocY" "l2" []) [Company.mk "C" "LocZ" "l3" []]
           ["["%string]).
  - intros b0. rewrite attempt_run. reflexivity.
  - lia.
  - reflexivity.
Defined.

(** The fetcher at the site whose second page shows a card with no name. *)
Lemma zero_persons_is_null_witness :
  exists b',
    getFoundersDataWithRetries nameless launched "l1" 3 = Some (None, b') /\
    newPage_calls b' = S (newPage_calls launched + 1).
Proof.
  apply (zero_persons_is_null nameless "l1" 3 launched 1
           [Card_dom None (Some [Some "https://x.com/jo"%string])]).
  - lia.
  - intros b0 Hb0. simpl in Hb0.
    assert (Hzero : newPage_calls b0 = O) by lia.
    rewrite attempt_run. cbv zeta. rewrite Hzero. reflexivity.
  - reflexivity.
  - reflexivity.
  - reflexivity.
Defined.

(** The fetcher asked for no attempt at all. *)
Lemma no_retries_no_attempt_witness :
  getFoundersDataWithRetries flaky launched "l1" 0 = Some (None, launched).
Proof. apply (no_retries_no_attempt flaky launched "l1" 0). lia. Defined.

(** C5, at a link whose first attempt fails at [goto] and whose second
    succeeds: the fetcher returns the founders and the page of the first
    attempt, page 0, is still open. *)
Theorem failed_attempt_leaves_page_open :
  getFoundersDataWithRetries flaky launched "l1" 3
  = Some (Some [Founder.mk "Jo" []],
          {| newPage_calls := 2; open_pages := [(O, "about:blank"%string)] |}).
Proof. reflexivity. Qed.

(** ** The persons read from the cards *)

(** A card that adds no person: the persons of the rest are the persons
    of the whole. *)
Ltac card_skipped IH Hscan :=
  rewrite (IH _ _ Hscan); split;
  [ intros [H | [m [a [Hin H]]]];
    [ tauto | right; exists m, a; split; [right; exact Hin | exact H] ]
  | intros [H | [m [a [[Heq | Hin] [Hm Hf]]]]];
    [ tauto
    | first [ discriminate Heq | injection Heq as <- <-; congruence ]
    | right; exists m, a; auto ] ].

(** The list grows by one person for each card that has a name and a links
    container, and by nothing else. *)
Lemma scan_cards_persons (cards : list Card) :
  forall (acc founderList : list Founder.t),
    scan_cards cards acc = Returned founderList ->
    forall f,
      In f founderList <->
      In f acc \/
      exists n anchors,
        In (Card_dom (Some (Some n)) (Some anchors)) cards /\
        n <> EmptyString /\ f = Founder.mk n (push_hrefs anchors []).
Proof.
  induction cards as [|card cards IH]; intros acc founderList Hscan f.
  - simpl in Hscan. injection Hscan as <-. split; [tauto|].
    intros [H | [n [anchors [[] _]]]]. exact H.
  - destruct card as [[[n|]|] [anchors|]|]; simpl in Hscan;
      try discriminate; try solve [card_skipped IH Hscan].
    destruct (n =? EmptyString)%string eqn:Hn; simpl in Hscan.
    + apply String.eqb_eq in Hn. card_skipped IH Hscan.
    + apply String.eqb_neq in Hn. rewrite (IH _ _ Hscan), in_app_iff. split.
      * intros [[H | [<- | []]] | [m [a [Hin H]]]]; [tauto | |].
        -- right. exists n, anchors. split; [left; reflexivity | auto].
        -- right. exists m, a. split; [right; exact Hin | exact H].
      * intros [H | [m [a [[Heq | Hin] [Hm Hf]]]]]; [tauto| |].
        -- injection Heq as <- <-. left. right. left. auto.
        -- right. exists m, a. auto.
Qed.

Section PersonClaims.

Variable web : Web.

(** C7, as the code has it. In the result of the attempt that loads the
    cards, a card is recorded as a person when it has a name that is not
    empty and a links container, with the links read from the container (none
    when the container holds no anchor); every person of the result comes
    from such a card.  A named card with no links container is not recorded. *)
Theorem named_card_with_links_container_is_recorded (companyLink : string)
    (maxRetries : Z) (b : Browser) (k : nat) (cards : list Card)
    (founderList : list Founder.t) :
  Z.of_nat k < maxRetries ->
  (forall b0, (newPage_calls b <= newPage_calls b0 < newPage_calls b + k)%nat ->
              fst (attempt web companyLink b0) = Thrown) ->
  newPage_ok web (newPage_calls b + k) = true ->
  visit web (newPage_calls b + k) companyLink = Loaded cards ->
  scan_cards cards [] = Returned founderList ->
  (exists b',
     getFoundersDataWithRetries web b companyLink maxRetries
     = Some (if (0 <? length founderList)%nat then Some founderList else None,
             b')) /\
  (forall n anchors,
     In (Card_dom (Some (Some n)) (Some anchors)) cards -> n <> EmptyString ->
     In (Founder.mk n (push_hrefs anchors [])) founderList) /\
  (forall n,
     In (Card_dom (Some (Some n)) (Some [])) cards -> n <> EmptyString ->
     In (Founder.mk n []) founderList) /\
  (forall f,
     In f founderList ->
     Founder.name f <> EmptyString /\
     exists anchors,
       In (Card_dom (Some (Some (Founder.name f))) (Some anchors)) cards /\
       Founder.links f = push_hrefs anchors []) /\
  (forall n links,
     n <> EmptyString ->
     (forall anchors, ~ In (Card_dom (Some (Some n)) (Some anchors)) cards) ->
     ~ In (Founder.mk n links) founderList).
Proof.
  intros Hk Hthrown Hok Hvisit Hscan.
  pose proof (scan_cards_persons cards [] founderList Hscan) as Hpersons.
  split; [|split; [|split; [|split]]].
  - destruct (retry_loop_returns web companyLink maxRetries cards founderList k
                Hscan (Z.to_nat maxRetries) 0 b) as [b' [Hrun _]];
      auto; try lia.
    exists b'. exact Hrun.
  - intros n anchors Hin Hn. apply Hpersons. right. exists n, anchors. auto.
  - intros n Hin Hn. apply Hpersons. right. exists n, []. auto.
  - intros f Hf. apply Hpersons in Hf.
    destruct Hf as [[] | [n [anchors [Hin [Hn ->]]]]]. simpl.
    split; [exact Hn|]. exists anchors. auto.
  - intros n links Hn Hnone Hf. apply Hpersons in Hf.
    destruct Hf as [[] | [m [anchors [Hin [Hm Heq]]]]].
    injection Heq as <- _. exact (Hnone anchors Hin).
Qed.

End PersonClaims.

(** The fetcher at the site whose second page shows Jo with an empty links
    container. *)
Lemma named_card_with_links_container_is_recorded_witness :
  (exists b',
     getFoundersDataWithRetries flaky launched "l1" 3
     = Some (if (0 <? length [Founder.mk "Jo" []])%nat
             then Some [Founder.mk "Jo" []] else None, b')) /\
  (forall n anchors,
     In (Card_dom (Some (Some n)) (Some anchors))
        [Card_dom (Some (Some "Jo"%string)) (Some [])] ->
     n <> EmptyString ->
     In (Founder.mk n (push_hrefs anchors [])) [Founder.mk "Jo" []]) /\
  (forall n,
     In (Card_dom (Some (Some n)) (Some []))
        [Card_dom (Some (Some "Jo"%string)) (Some [])] ->
     n <> EmptyString ->
     In (Founder.mk n []) [Founder.mk "Jo" []]) /\
  (forall f,
     In f [Founder.mk "Jo" []] ->
     Founder.name f <> EmptyString /\
     exists anchors,
       In (Card_dom (Some (Some (Founder.name f))) (Some anchors))
          [Card_dom (Some (Some "Jo"%string)) (Some [])] /\
       Founder.links f = push_hrefs anchors []) /\
  (forall n links,
     n <> EmptyString ->
     (forall anchors,
        ~ In (Card_dom (Some (Some n)) (Some anchors))
             [Card_dom (Some (Some "Jo"%string)) (Some [])]) ->
     ~ In (Founder.mk n links) [Founder.mk "Jo" []]).
Proof.
  apply (named_card_with_links_container_is_recorded flaky "l1" 3 launched 1
           [Card_dom (Some (Some "Jo"%string)) (Some [])]
           [Founder.mk "Jo" []]).
  - lia.
  - intros b0 Hb0. simpl in Hb0.
    assert (Hzero : newPage_calls b0 = O) by lia.
    rewrite attempt_run. cbv zeta. rewrite Hzero. reflexivity.
  - reflexivity.
  - reflexivity.
  - reflexivity.
Defined.

(** C7, as stated, fails: a card with the name Jo and no links container
    gives no person, and the fetcher returns [null] for its page. *)
Lemma named_card_without_links_container_is_dropped :
  scan_cards [Card_dom (Some (Some "Jo"%string)) None] [] = Returned [] /\
  ~ exists founderList b' links,
      getFoundersDataWithRetries bare launched "l1" 3
        = Some (Some founderList, b') /\
      In (Founder.mk "Jo" links) founderList.
Proof.
  split; [reflexivity|].
  intros [founderList [b' [links [Hrun _]]]].
  vm_compute in Hrun. discriminate Hrun.
Qed.

(** ** What reaches the output *)

Section OutputClaims.

Variable web : Web.

(** C4. A record whose fetch returns a list gets the list as [founders]
    and its serialized form is appended to the stream; a record whose fetch
    returns [null] is left as it is and the stream is left as it is.  In a
    run where some fetch returns [null], the loop writes fewer records than
    the set holds. *)
Theorem enrichment_decides_output (company : Company.t) (stream : list string)
    (b b' : Browser) (founderData : option (list Founder.t)) :
  getFoundersDataWithRetries web b (Company.link company) default_maxRetries
    = Some (founderData, b') ->
  match founderData with
  | Some founders =>
      let company' :=
        Company.mk (Company.name company) (Company.location company)
                   (Company.link company) founders in
      enrich_one web company stream b
      = Some (company',
              stream ++ [(JSON_stringify company' ++ "," ++ newline)%string],
              b')
  | None =>
      enrich_one web company stream b = Some (company, stream, b') /\
      forall (front back front' : list Company.t) (stream0 : list string)
             (b0 : Browser),
        enrich web front stream0 b0 = Some (front', stream, b) ->
        exists back' stream' b'' written,
          enrich web back stream b' = Some (back', stream', b'') /\
          enrich web (front ++ company :: back) stream0 b0
            = Some (front' ++ company :: back', stream', b'') /\
          stream' = stream0 ++ written /\
          (length written < length (front ++ company :: back))%nat
  end.
Proof.
  intros Hfetch. destruct founderData as [founders|].
  - cbv zeta. unfold enrich_one. rewrite Hfetch. reflexivity.
  - assert (Hone : enrich_one web company stream b = Some (company, stream, b'))
      by (unfold enrich_one; rewrite Hfetch; reflexivity).
    split; [exact Hone|].
    intros front back front' stream0 b0 Hfront.
    destruct (enrich_total web back stream b') as [back' [stream' [b'' Hback]]].
    destruct (enrich_stream web _ _ _ _ _ _ Hfront) as [_ [w1 [Hs1 [Hl1 _]]]].
    destruct (enrich_stream web _ _ _ _ _ _ Hback) as [_ [w2 [Hs2 [Hl2 _]]]].
    exists back', stream', b'', (w1 ++ w2). split; [exact Hback|]. split.
    + rewrite enrich_app, Hfront. simpl. rewrite Hone, Hback. reflexivity.
    + split.
      * rewrite Hs2, Hs1, app_assoc. reflexivity.
      * rewrite !length_app. simpl. lia.
Qed.

End OutputClaims.

(** The turn of the loop for a record whose page never loads. *)
Lemma enrichment_decides_output_witness :
  enrich_one one_of_two (Company.mk "B" "LocY" "link2" []) ["["%string]
             launched
    = Some (Company.mk "B" "LocY" "link2" [], ["["%string],
            {| newPage_calls := 3;
               open_pages := [(2, "about:blank"); (1, "about:blank");
                              (0, "about:blank")]%nat%string |}) /\
  forall (front back front' : list Company.t) (stream0 : list string)
         (b0 : Browser),
    enrich one_of_two front stream0 b0 = Some (front', ["["%string], launched) ->
    exists back' stream' b'' written,
      enrich one_of_two back ["["%string]
             {| newPage_calls := 3;
                open_pages := [(2, "about:blank"); (1, "about:blank");
                               (0, "about:blank")]%nat%string |}
        = Some (back', stream', b'') /\
      enrich one_of_two (front ++ Company.mk "B" "LocY" "link2" [] :: back)
             stream0 b0
        = Some (front' ++ Company.mk "B" "LocY" "link2" [] :: back', stream', b'') /\
      stream' = stream0 ++ written /\
      (length written
       < length (front ++ Company.mk "B" "LocY" "link2" [] :: back))%nat.
Proof.
  apply (enrichment_decides_output one_of_two
           (Company.mk "B" "LocY" "link2" []) ["["%string] launched
           {| newPage_calls := 3;
              open_pages := [(2, "about:blank"); (1, "about:blank");
                             (0, "about:blank")]%nat%string |}
           None).
  reflexivity.
Defined.

(** ** The bytes of the file *)

Lemma append_assoc (a b c : string) : ((a ++ b) ++ c = a ++ b ++ c)%string.
Proof. induction a as [|x a IH]; simpl; [reflexivity | now rewrite IH]. Qed.

Lemma file_of_app (front back : list string) :
  file_of (front ++ back) = (file_of front ++ file_of back)%string.
Proof.
  induction front as [|chunk front IH]; simpl; [reflexivity|].
  now rewrite IH, append_assoc.
Qed.

Lemma chars_app (a b : string) : chars (a ++ b)%string = chars a ++ chars b.
Proof.
  unfold chars. induction a as [|x a IH]; simpl; [reflexivity | now rewrite IH].
Qed.

(** ** Where a JSON text can end *)

Lemma last_token_app (a b : list ascii) :
  last_token (a ++ b) =
    match last_token b with
    | Some t => Some t
    | None => last_token a
    end.
Proof.
  induction a as [|c a IH]; simpl.
  - destruct (last_token b); reflexivity.
  - rewrite IH. destruct (last_token b); reflexivity.
Qed.

Lemma last_token_ws (w : list ascii) : json_ws w -> last_token w = None.
Proof.
  unfold json_ws. induction w as [|c w IH]; simpl; [reflexivity|].
  intros H. apply andb_true_iff in H. destruct H as [Hc Hw].
  rewrite (IH Hw), Hc. reflexivity.
Qed.

Lemma last_token_snoc (s : list ascii) (c : ascii) :
  is_ws c = false -> last_token (s ++ [c]) = Some c.
Proof. intros Hc. rewrite last_token_app. simpl. rewrite Hc. reflexivity. Qed.

Lemma digit_is_token (c : ascii) :
  is_digit c = true -> is_ws c = false /\ c <> ","%char.
Proof.
  destruct c as [[] [] [] [] [] [] [] []]; vm_compute;
    intros H; split; congruence.
Qed.

(** A text that ends with digits ends with a digit. *)
Lemma last_token_digits (s ds : list ascii) :
  json_digits ds ->
  exists c, last_token (s ++ ds) = Some c /\ c <> ","%char.
Proof.
  intros [Hne Hall].
  destruct (exists_last Hne) as [ds' [c ->]].
  rewrite forallb_app in Hall. apply andb_true_iff in Hall.
  destruct Hall as [_ Hc]. simpl in Hc. rewrite andb_true_r in Hc.
  apply digit_is_token in Hc. destruct Hc as [Hws Hcomma].
  exists c. rewrite app_assoc, last_token_snoc; auto.
Qed.

Lemma last_token_number (s : list ascii) :
  json_number s -> exists c, last_token s = Some c /\ c <> ","%char.
Proof.
  intros [minus [i [f [e [_ [Hi [Hf [He ->]]]]]]]].
  destruct He as [-> | [x [sign [ds [_ [_ [Hds ->]]]]]]].
  - rewrite app_nil_r.
    destruct Hf as [-> | [ds [Hds ->]]].
    + rewrite app_nil_r. apply last_token_digits.
      destruct Hi as [-> | [d [ds [Hd [Hall ->]]]]].
      * split; [discriminate | reflexivity].
      * split; [discriminate|]. simpl. rewrite Hall, andb_true_r.
        destruct d as [[] [] [] [] [] [] [] []]; vm_compute in Hd |- *;
          congruence.
    + replace (minus ++ i ++ "."%char :: ds)
        with ((minus ++ i ++ ["."%char]) ++ ds)
        by (rewrite <- !app_assoc; reflexivity).
      now apply last_token_digits.
  - replace (minus ++ i ++ f ++ x :: sign ++ ds)
      with ((minus ++ i ++ f ++ x :: sign) ++ ds)
      by (rewrite <- !app_assoc; reflexivity).
    now apply last_token_digits.
Qed.

(** A value ends with a byte that is neither white space nor a comma. *)
Lemma last_token_value (v : list ascii) :
  json_value v -> exists c, last_token v = Some c /\ c <> ","%char.
Proof.
  intros Hv. destruct Hv as [ | | | s [body [_ ->]] | s Hn | w _ | ms _ | w _ | es _ ].
  - exists "e"%char. split; [reflexivity | discriminate].
  - exists "e"%char. split; [reflexivity | discriminate].
  - exists "l"%char. split; [reflexivity | discriminate].
  - exists DQUOTE. split; [|discriminate].
    now rewrite app_comm_cons, last_token_snoc.
  - now apply last_token_number.
  - exists "}"%char. split; [|discriminate].
    now rewrite app_comm_cons, last_token_snoc.
  - exists "}"%char. split; [|discriminate].
    now rewrite app_comm_cons, last_token_snoc.
  - exists "]"%char. split; [|discriminate].
    now rewrite app_comm_cons, last_token_snoc.
  - exists "]"%char. split; [|discriminate].
    now rewrite app_comm_cons, last_token_snoc.
Qed.

(** So does a list of elements: no comma comes last. *)
Lemma last_token_elements (es : list ascii) :
  json_elements es -> exists c, last_token es = Some c /\ c <> ","%char.
Proof.
  induction 1 as [w1 v w2 _ Hv Hw2 | w1 v w2 es _ _ _ _ IH].
  - destruct (last_token_value v Hv) as [c [Hc Hcomma]].
    exists c. split; [|exact Hcomma].
    rewrite !last_token_app, (last_token_ws w2 Hw2), Hc. reflexivity.
  - destruct IH as [c [Hc Hcomma]]. exists c. split; [|exact Hcomma].
    rewrite !last_token_app. simpl. rewrite Hc. reflexivity.
Qed.

(** An array text whose last token before the closing bracket is a comma
    is not JSON. *)
Lemma trailing_comma_not_json (inner : list ascii) :
  last_token inner = Some ","%char ->
  ~ json_text ("["%char :: inner ++ ["]"%char]).
Proof.
  intros Hlast [w1 [v [w2 [Hw1 [Hv [Hw2 Heq]]]]]].
  destruct w1 as [|c w1].
  2:{ injection Heq as <- _. discriminate Hw1. }
  simpl in Heq.
  destruct (list_eq_dec ascii_dec w2 []) as [-> | Hne].
  2:{ destruct (exists_last Hne) as [w2' [c ->]].
      rewrite app_assoc, app_comm_cons in Heq.
      apply app_inj_tail in Heq. destruct Heq as [_ <-].
      unfold json_ws in Hw2. rewrite forallb_app in Hw2.
      apply andb_true_iff in Hw2. destruct Hw2 as [_ Hc]. discriminate Hc. }
  rewrite app_nil_r in Heq. subst v.
  remember ("["%char :: inner ++ ["]"%char]) as t eqn:Ht.
  destruct Hv as [ | | | s [body [_ ->]] | s Hn | w Hw | ms _ | w Hw | es Hes ];
    try discriminate Ht.
  - destruct Hn as [minus [i [f [e [Hminus [Hi [_ [_ ->]]]]]]]].
    destruct Hminus as [-> | ->]; [|discriminate Ht].
    destruct Hi as [-> | [d [ds [Hd [_ ->]]]]]; [discriminate Ht|].
    injection Ht as -> _. discriminate Hd.
  - injection Ht as Ht. apply app_inj_tail in Ht. destruct Ht as [-> _].
    rewrite (last_token_ws _ Hw) in Hlast. discriminate Hlast.
  - injection Ht as Ht. apply app_inj_tail in Ht. destruct Ht as [-> _].
    destruct (last_token_elements _ Hes) as [c [Hc Hcomma]]. congruence.
Qed.

Lemma empty_array_is_json : valid_JSON ("[" ++ newline ++ "]").
Proof.
  exists [], (chars ("[" ++ newline ++ "]")), []. repeat split.
  apply (value_empty_array [LF]). reflexivity.
Qed.

(** The bytes between the brackets end with a comma and a newline as soon
    as one record was written. *)
Lemma record_lines_end_with_comma (records : list Company.t) :
  records <> [] ->
  last_token (chars (newline ++ file_of (map record_line records)))
  = Some ","%char.
Proof.
  intros Hne. destruct (exists_last Hne) as [front [company ->]].
  rewrite map_app, file_of_app. cbn [map file_of].
  change (record_line company)
    with (JSON_stringify company ++ "," ++ newline)%string.
  generalize (JSON_stringify company) as json. intros json.
  rewrite !chars_app, !last_token_app. reflexivity.
Qed.

(** A file with one record line or more between the brackets is not
    JSON. *)
Lemma file_with_records_not_json (records : list Company.t) :
  records <> [] ->
  ~ valid_JSON ("[" ++ newline ++ file_of (map record_line records) ++ "]").
Proof.
  intros Hsome. unfold valid_JSON.
  replace (chars ("[" ++ newline ++ file_of (map record_line records) ++ "]"))
    with ("["%char :: chars (newline ++ file_of (map record_line records))
          ++ ["]"%char]).
  - apply trailing_comma_not_json. now apply record_lines_end_with_comma.
  - simpl. f_equal. f_equal. rewrite !chars_app. reflexivity.
Qed.

Section FileClaims.

Variable web : Web.

(** C9. A run that completes leaves a file made of an opening bracket and
    a newline, then the serialization of each enriched record of the set, in
    the order of the set, each followed by a comma and a newline, then a
    closing bracket.  The set holds the canonical records in the order the
    collector inserted them.  The file is JSON when no record was enriched,
    and is not JSON as soon as one was. *)
Theorem output_file_shape (session : Session) (b' : Browser)
    (path file : string) (companyList : list Company.t) :
  main web session = Completed path file companyList b' ->
  file = ("[" ++ newline
          ++ file_of (map record_line (filter has_founders companyList))
          ++ "]")%string /\
  (exists emissions iterations,
     getCompanies (listing session) = Halted emissions iterations /\
     map listing_of companyList = map listing_of (collect emissions)) /\
  (filter has_founders companyList = [] ->
   file = ("[" ++ newline ++ "]")%string /\ valid_JSON file) /\
  (filter has_founders companyList <> [] -> ~ valid_JSON file).
Proof.
  unfold main. intros Hrun.
  destruct (launch_ok session); [|discriminate].
  destruct (browser_newPage web _) as [[page|] b0]; [|discriminate].
  destruct (listing_goto_ok session); [|discriminate].
  destruct (getCompanies (listing session)) as [emissions n | |] eqn:Htraversal;
    try discriminate.
  match type of Hrun with
  | context [enrich web (collect emissions) ?s ?b] =>
      destruct (enrich web (collect emissions) s b)
        as [[[companyList' stream'] b1]|] eqn:Hloop; [|discriminate]
  end.
  injection Hrun as _ <- <- <-.
  destruct (enrich_stream web _ _ _ _ _ _ Hloop) as [Hkeys [written [-> [_ Hw]]]].
  assert (Hwritten : written = map record_line (filter has_founders companyList')).
  { apply Hw. apply Forall_forall. intros c Hc.
    destruct (collect_collected emissions) as [_ _ Hfresh].
    rewrite (Hfresh c Hc). reflexivity. }
  assert (Hfile :
    file_of (([("[" ++ newline)%string] ++ written) ++ ["]"%string])
    = ("[" ++ newline
       ++ file_of (map record_line (filter has_founders companyList'))
       ++ "]")%string).
  { rewrite !file_of_app, Hwritten. simpl. reflexivity. }
  split; [exact Hfile|]. split; [eauto|]. split.
  - intros Hnone. rewrite Hfile, Hnone. simpl.
    split; [reflexivity | exact empty_array_is_json].
  - intros Hsome. rewrite Hfile. now apply file_with_records_not_json.
Qed.

End FileClaims.

(** The run over the short listing, at the site where only the page of A
    loads. *)
Lemma output_file_shape_witness :
  ("[" ++ newline ++ record_line (company_A [founder_Jo]) ++ "]")%string
  = ("[" ++ newline
     ++ file_of (map record_line
                     (filter has_founders [company_A [founder_Jo]; company_B]))
     ++ "]")%string /\
  (exists emissions iterations,
     getCompanies (listing short_session) = Halted emissions iterations /\
     map listing_of [company_A [founder_Jo]; company_B]
     = map listing_of (collect emissions)) /\
  (filter has_founders [company_A [founder_Jo]; company_B] = [] ->
   ("[" ++ newline ++ record_line (company_A [founder_Jo]) ++ "]")%string
   = ("[" ++ newline ++ "]")%string /\
   valid_JSON ("[" ++ newline ++ record_line (company_A [founder_Jo]) ++ "]")) /\
  (filter has_founders [company_A [founder_Jo]; company_B] <> [] ->
   ~ valid_JSON ("[" ++ newline ++ record_line (company_A [founder_Jo]) ++ "]")).
Proof.
  apply (output_file_shape one_of_two short_session
           {| newPage_calls := 5; open_pages := [] |} output_path).
  vm_compute. reflexivity.
Defined.

(** ** A serialized record is a JSON value

    The grammar accepts what [JSON.stringify] prints: the file is rejected
    for its comma, not for its records. *)

Lemma quote_code_unit_chars (c : ascii) (rest : list ascii) :
  json_chars rest -> json_chars (chars (quote_code_unit c) ++ rest).
Proof.
  intros Hrest.
  destruct c as [[] [] [] [] [] [] [] []]; cbv;
    first [ apply chars_plain; [reflexivity | exact Hrest]
          | apply chars_escape; [reflexivity | exact Hrest]
          | apply chars_unicode; [reflexivity | exact Hrest] ].
Qed.

Lemma quote_body_chars (s : string) : json_chars (chars (quote_body s)).
Proof.
  induction s as [|c s IH]; simpl; [constructor|].
  rewrite chars_app. now apply quote_code_unit_chars.
Qed.

Lemma QuoteJSONString_string (s : string) :
  json_string (chars (QuoteJSONString s)).
Proof.
  exists (chars (quote_body s)). split; [apply quote_body_chars|].
  unfold QuoteJSONString. simpl. rewrite chars_app. reflexivity.
Qed.

Lemma join_comma_cons (x y : string) (items : list string) :
  join_comma (x :: y :: items) = (x ++ "," ++ join_comma (y :: items))%string.
Proof. reflexivity. Qed.

Lemma join_comma_elements (items : list string) :
  items <> [] ->
  Forall (fun x => json_value (chars x)) items ->
  json_elements (chars (join_comma items)).
Proof.
  induction items as [|x items IH]; [congruence|].
  intros _ Hall. inversion Hall as [|? ? Hx Hrest]; subst.
  destruct items as [|y items].
  - simpl. pose proof (elements_last [] (chars x) [] eq_refl Hx eq_refl) as H.
    simpl in H. rewrite app_nil_r in H. exact H.
  - rewrite join_comma_cons, chars_app.
    pose proof (elements_more [] (chars x) [] _ eq_refl Hx eq_refl
                  (IH ltac:(discriminate) Hrest)) as H.
    exact H.
Qed.

Lemma stringify_array_value (items : list string) :
  Forall (fun x => json_value (chars x)) items ->
  json_value (chars (stringify_array items)).
Proof.
  intros Hall. unfold stringify_array.
  change ("[" ++ join_comma items ++ "]")%string
    with (String "[" (join_comma items ++ "]")).
  cbn [chars list_ascii_of_string]. fold (chars (join_comma items ++ "]")).
  rewrite chars_app.
  destruct items as [|x items].
  - apply (value_empty_array []). reflexivity.
  - apply value_array. apply join_comma_elements; [discriminate | exact Hall].
Qed.

Lemma join_comma_members (properties : list (string * string)) :
  properties <> [] ->
  Forall (fun kv => json_value (chars (snd kv))) properties ->
  json_members
    (chars (join_comma
              (map (fun kv => QuoteJSONString (fst kv) ++ ":" ++ snd kv)%string
                   properties))).
Proof.
  induction properties as [|[k v] properties IH]; [congruence|].
  intros _ Hall. inversion Hall as [|? ? Hv Hrest]; subst. simpl in Hv.
  destruct properties as [|kv properties].
  - simpl. rewrite chars_app.
    pose proof (members_last [] _ [] [] _ [] eq_refl
                  (QuoteJSONString_string k) eq_refl eq_refl Hv eq_refl) as H.
    simpl in H. rewrite app_nil_r in H. exact H.
  - cbn [map fst snd]. cbn [map] in IH.
    rewrite join_comma_cons, !chars_app.
    pose proof (members_more [] _ [] [] _ [] _ eq_refl
                  (QuoteJSONString_string k) eq_refl eq_refl Hv eq_refl
                  (IH ltac:(discriminate) Hrest)) as H.
    simpl in H. rewrite <- app_assoc. exact H.
Qed.

Lemma stringify_object_value (properties : list (string * string)) :
  Forall (fun kv => json_value (chars (snd kv))) properties ->
  json_value (chars (stringify_object properties)).
Proof.
  intros Hall. unfold stringify_object.
  match goal with
  | |- json_value (chars ("{" ++ ?m ++ "}")%string) =>
      change ("{" ++ m ++ "}")%string with (String "{" (m ++ "}"));
      cbn [chars list_ascii_of_string]; fold (chars (m ++ "}"))
  end.
  rewrite chars_app.
  destruct properties as [|kv properties].
  - apply (value_empty_object []). reflexivity.
  - apply value_object. apply join_comma_members; [discriminate | exact Hall].
Qed.

Lemma stringify_founder_value (f : Founder.t) :
  json_value (chars (stringify_founder f)).
Proof.
  apply stringify_object_value.
  repeat (apply Forall_cons; [cbn [snd]|]); [| |apply Forall_nil].
  - apply value_string, QuoteJSONString_string.
  - apply stringify_array_value. apply Forall_forall. intros x Hx.
    apply in_map_iff in Hx. destruct Hx as [l [<- _]].
    apply value_string, QuoteJSONString_string.
Qed.

Lemma JSON_stringify_value (company : Company.t) :
  json_value (chars (JSON_stringify company)).
Proof.
  apply stringify_object_value.
  repeat (apply Forall_cons; [cbn [snd]|]); [| | | |apply Forall_nil];
    try (apply value_string, QuoteJSONString_string).
  apply stringify_array_value. apply Forall_forall. intros x Hx.
  apply in_map_iff in Hx. destruct Hx as [f [<- _]].
  apply stringify_founder_value.
Qed.

(** ** The end-to-end example of the specification

    Two emissions of A and one of B (seen twice, the page being scanned
    twice) give a set of two records; the fetch for A returns one founder,
    the fetch for B uses its three attempts; the file holds the record of A
    and nothing for B, and is not JSON. *)
Example end_to_end :
  collect (scan_companies [listing_A; listing_A; listing_B])
    = [company_A []; company_B] /\
  main one_of_two short_session
    = Completed "company_data_YC_W23.json"
                ("[" ++ newline ++ record_line (company_A [founder_Jo]) ++ "]")
                [company_A [founder_Jo]; company_B]
                {| newPage_calls := 5; open_pages := [] |} /\
  ~ valid_JSON ("[" ++ newline ++ record_line (company_A [founder_Jo]) ++ "]").
Proof.
  split; [reflexivity|]. split; [vm_compute; reflexivity|].
  apply (file_with_records_not_json [company_A [founder_Jo]]). discriminate.
Qed.

(** * Further properties *)

(** ** The traversal, turn by turn *)

Lemma after_turn_yield (ys : list Listing.t) (t : Traversal) :
  yielded_of (after_turn ys t) = ys ++ yielded_of t.
Proof. destruct t; reflexivity. Qed.

Lemma height_after_snoc (h : Z) (turns : list Render) (r : Render) :
  height_after h (turns ++ [r]) = scrollHeight r.
Proof. unfold height_after. rewrite fold_left_app. reflexivity. Qed.

(** X1. After turns that all grow, the loop halts at the first turn whose
    height is not above the height before, having read that turn too; it
    throws at the first turn whose wait times out, before reading it; and it
    is still running when every turn of the script grows.  What it has
    yielded is the yield of every turn read, in order, and the turns after
    the last one read play no part. *)
Theorem traversal_outcome (front : list Render) (h : Z) :
  grows h front = true ->
  (forall r rest,
     selector_found r = true -> scrollHeight r <= height_after h front ->
     getCompanies_from (front ++ r :: rest) h
     = Halted (flat_map turn_yield (front ++ [r])) (S (length front))) /\
  (forall r rest,
     selector_found r = false ->
     getCompanies_from (front ++ r :: rest) h
     = Threw (flat_map turn_yield front) (length front)) /\
  getCompanies_from front h
  = Pending (flat_map turn_yield front) (length front).
Proof.
  revert h. induction front as [|t front IH]; intros h Hgrows.
  - repeat split.
    + intros r rest Hfound Hle. simpl in *. rewrite Hfound.
      replace (scrollHeight r >? h) with false
        by (symmetry; rewrite Z.gtb_ltb; apply Z.ltb_ge; exact Hle).
      unfold turn_yield. rewrite app_nil_r. reflexivity.
    + intros r rest Hfound. simpl. rewrite Hfound. reflexivity.
  - simpl in Hgrows. apply andb_true_iff in Hgrows.
    destruct Hgrows as [Hturn Hrest]. apply andb_true_iff in Hturn.
    destruct Hturn as [Hfound Hgt].
    destruct (IH _ Hrest) as [Hhalt [Hthrow Hpending]].
    repeat split.
    + intros r rest Hr Hle. simpl. rewrite Hfound, Hgt.
      rewrite Hhalt; [reflexivity | exact Hr |].
      unfold height_after in *. simpl in Hle. exact Hle.
    + intros r rest Hr. simpl. rewrite Hfound, Hgt.
      rewrite Hthrow; [reflexivity | exact Hr].
    + simpl. rewrite Hfound, Hgt, Hpending. reflexivity.
Qed.

(** The loop over the first two turns of the growing listing. *)
Lemma traversal_outcome_witness :
  (forall r rest,
     selector_found r = true ->
     scrollHeight r <= height_after 0 (firstn 2 growing_listing) ->
     getCompanies_from (firstn 2 growing_listing ++ r :: rest) 0
     = Halted (flat_map turn_yield (firstn 2 growing_listing ++ [r]))
              (S (length (firstn 2 growing_listing)))) /\
  (forall r rest,
     selector_found r = false ->
     getCompanies_from (firstn 2 growing_listing ++ r :: rest) 0
     = Threw (flat_map turn_yield (firstn 2 growing_listing))
             (length (firstn 2 growing_listing))) /\
  getCompanies_from (firstn 2 growing_listing) 0
  = Pending (flat_map turn_yield (firstn 2 growing_listing))
            (length (firstn 2 growing_listing)).
Proof. apply (traversal_outcome (firstn 2 growing_listing) 0). reflexivity. Defined.

(** The turns a halted traversal read. *)
Lemma getCompanies_from_halted (page : list Render) (h : Z)
    (ys : list Listing.t) (n : nat) :
  getCompanies_from page h = Halted ys n ->
  exists front r rest,
    page = front ++ r :: rest /\
    grows h front = true /\
    selector_found r = true /\
    scrollHeight r <= height_after h front /\
    n = S (length front) /\
    ys = flat_map turn_yield (front ++ [r]).
Proof.
  revert h ys n. induction page as [|t page IH]; intros h ys n Hrun.
  - discriminate Hrun.
  - simpl in Hrun. destruct (selector_found t) eqn:Hfound; [|discriminate].
    destruct (scrollHeight t >? h) eqn:Hgt.
    + destruct (getCompanies_from page (scrollHeight t)) as [zs m| |] eqn:Hrest;
        try discriminate.
      simpl in Hrun. injection Hrun as <- <-.
      destruct (IH _ _ _ Hrest) as [front [r [rest [-> [Hg [Hr [Hle [-> ->]]]]]]]].
      exists (t :: front), r, rest. simpl. rewrite Hfound, Hgt, Hg.
      repeat split; auto.
    + injection Hrun as <- <-. exists [], t, page. simpl.
      rewrite Z.gtb_ltb in Hgt. apply Z.ltb_ge in Hgt.
      unfold turn_yield. rewrite app_nil_r. repeat split; auto.
Qed.

(** X2. A traversal that halted after [n] turns read the first [n] turns
    of the page and no other: the wait resolved at each, the height grew at
    each but the last, and the yield is that of those turns, in order. *)
Theorem halted_traversal_read (page : list Render) (h : Z)
    (ys : list Listing.t) (n : nat) :
  getCompanies_from page h = Halted ys n ->
  exists front r rest,
    page = front ++ r :: rest /\
    grows h front = true /\
    selector_found r = true /\
    scrollHeight r <= height_after h front /\
    n = S (length front) /\
    ys = flat_map turn_yield (front ++ [r]).
Proof. exact (getCompanies_from_halted page h ys n). Qed.

(** The traversal of the growing listing, which halts at its third turn. *)
Lemma halted_traversal_read_witness :
  exists front r rest,
    growing_listing = front ++ r :: rest /\
    grows 0 front = true /\
    selector_found r = true /\
    scrollHeight r <= height_after 0 front /\
    3%nat = S (length front) /\
    [Listing.mk "A" "LocX" "https://ycombinator.com/companies/a";
     Listing.mk "A" "LocX" "https://ycombinator.com/companies/a";
     Listing.mk "B" "LocY" "https://ycombinator.com/companies/b";
     Listing.mk "A" "LocX" "https://ycombinator.com/companies/a";
     Listing.mk "B" "LocY" "https://ycombinator.com/companies/b"]
    = flat_map turn_yield (front ++ [r]).
Proof. apply (halted_traversal_read growing_listing 0). reflexivity. Defined.

(** ** What a snapshot yields *)

Lemma scan_companies_app (front back : list CompanyElement) :
  scan_companies (front ++ back) = scan_companies front ++ scan_companies back.
Proof.
  induction front as [|e front IH]; simpl; [reflexivity|].
  destruct (scan_company e); simpl; now rewrite IH.
Qed.



(** ** The collector, emission after emission *)

Lemma collect_app (emissions later : list Listing.t) :
  collect (emissions ++ later) = fold_left collect_step later (collect emissions).
Proof. unfold collect. apply fold_left_app. Qed.

(** Emissions whose triples the set already holds leave it as it is. *)
Lemma collect_steps_known (later : list Listing.t) (companyList : list Company.t) :
  (forall e, In e later -> In e (map listing_of companyList)) ->
  fold_left collect_step later companyList = companyList.
Proof.
  induction later as [|e later IH]; intros Hknown; simpl; [reflexivity|].
  rewrite collect_step_known by (apply Hknown; now left).
  apply IH. intros e' He'. apply Hknown. now right.
Qed.

(** Further emissions only append, and only records of triples the set
    does not hold yet. *)
Lemma collect_steps_append (later : list Listing.t) :
  forall companyList : list Company.t,
    exists tail,
      fold_left collect_step later companyList = companyList ++ tail /\
      forall c, In c tail ->
                In (listing_of c) later /\
                ~ In (listing_of c) (map listing_of companyList).
Proof.
  induction later as [|e later IH]; intros companyList; simpl.
  - exists []. rewrite app_nil_r. split; [reflexivity | intros c []].
  - destruct (in_dec Listing_eq_dec e (map listing_of companyList)) as [Hin | Hnew].
    + rewrite (collect_step_known _ _ Hin).
      destruct (IH companyList) as [tail [Heq Htail]].
      exists tail. split; [exact Heq|].
      intros c Hc. destruct (Htail c Hc). auto.
    + rewrite (collect_step_new _ _ Hnew).
      destruct (IH (companyList ++ [fresh_company e])) as [tail [Heq Htail]].
      exists (fresh_company e :: tail). split.
      * rewrite Heq, <- app_assoc. reflexivity.
      * intros c [<- | Hc].
        -- rewrite listing_of_fresh. auto.
        -- destruct (Htail c Hc) as [Hlater Hnot]. split; [auto|].
           intros Hacc. apply Hnot. rewrite map_app. apply in_or_app. now left.
Qed.

(** X4. The set never loses or moves a record: after further emissions it
    is the set as it was, followed by the records of the triples that were
    new; when every further emission repeats a triple seen before, the set is
    unchanged. *)
Theorem collect_only_appends (emissions later : list Listing.t) :
  exists tail,
    collect (emissions ++ later) = collect emissions ++ tail /\
    (forall c, In c tail ->
               In (listing_of c) later /\ ~ In (listing_of c) emissions) /\
    ((forall e, In e later -> In e emissions) -> tail = []).
Proof.
  destruct (collect_collected emissions) as [_ Hkeys _].
  destruct (collect_steps_append later (collect emissions)) as [tail [Heq Htail]].
  exists tail. rewrite collect_app. split; [exact Heq|]. split.
  - intros c Hc. destruct (Htail c Hc) as [Hlater Hnot].
    split; [exact Hlater|]. intros Hin. apply Hnot. now apply Hkeys.
  - intros Hknown. rewrite collect_steps_known in Heq.
    + rewrite <- (app_nil_r (collect emissions)) in Heq at 1.
      apply app_inv_head in Heq. now symmetry.
    + intros e He. apply Hkeys. now apply Hknown.
Qed.

(** X5. The set is the list of the distinct triples of the input, in the
    order of their first emission, each with empty [founders]. *)
Theorem collect_in_first_emission_order (emissions : list Listing.t) :
  collect emissions = map fresh_company (first_emissions emissions).
Proof.
  induction emissions as [|e emissions IH] using rev_ind; [reflexivity|].
  destruct (collect_collected emissions) as [_ Hkeys _].
  rewrite collect_snoc. unfold first_emissions in *.
  rewrite rev_app_distr. simpl rev at 2. simpl app. simpl nodup.
  destruct (in_dec Listing_eq_dec e (rev emissions)) as [Hin | Hnew].
  - rewrite collect_step_known; [exact IH|].
    apply Hkeys. now apply in_rev.
  - rewrite collect_step_new.
    + simpl rev. rewrite map_app, IH. reflexivity.
    + intros Hin. apply Hnew. rewrite <- in_rev. now apply Hkeys.
Qed.

(** ** A listing that only appends *)

Lemma append_only_app (front back : list Render) :
  forall shown,
    append_only shown (front ++ back) ->
    append_only shown front /\ append_only (shown_after shown front) back.
Proof.
  induction front as [|r front IH]; intros shown H; simpl in *.
  - auto.
  - destruct H as [Hadded Hrest]. destruct (IH _ Hrest) as [Hfront Hback].
    unfold shown_after in *. simpl. auto.
Qed.

Lemma collect_keys_of_scan (elements : list CompanyElement) (e : Listing.t) :
  In e (scan_companies elements) ->
  In e (map listing_of (collect (scan_companies elements))).
Proof.
  intros He. destruct (collect_collected (scan_companies elements))
    as [_ Hkeys _]. now apply Hkeys.
Qed.

(** Scanning the turns of such a listing, one after the other, fills the
    set as scanning the last turn alone does. *)
Lemma collect_append_only (turns : list Render) :
  forall shown,
    append_only shown turns ->
    fold_left collect_step (flat_map turn_yield turns)
              (collect (scan_companies shown))
    = collect (scan_companies (shown_after shown turns)).
Proof.
  induction turns as [|r turns IH]; intros shown H.
  - reflexivity.
  - destruct H as [[added Hshown] Hrest]. cbn [flat_map].
    rewrite fold_left_app.
    change (turn_yield r) with (scan_companies (companies r)).
    rewrite Hshown, scan_companies_app, fold_left_app.
    rewrite (collect_steps_known (scan_companies shown))
      by (intros e He; now apply collect_keys_of_scan).
    rewrite <- collect_app, <- scan_companies_app, <- Hshown.
    unfold shown_after. simpl. apply (IH _ Hrest).
Qed.

(** X6. On a listing that only appends (every turn shows the elements of
    the turn before, then the new ones), the set collected from a halted
    traversal is the set collected from its last turn alone: what the earlier
    turns yielded is absorbed. *)
Theorem collect_of_append_only_listing (page : list Render)
    (ys : list Listing.t) (n : nat) :
  append_only [] page ->
  getCompanies page = Halted ys n ->
  exists front r rest,
    page = front ++ r :: rest /\ n = S (length front) /\
    collect ys = collect (scan_companies (companies r)).
Proof.
  intros Hpage Hrun.
  destruct (getCompanies_from_halted page 0 ys n Hrun)
    as [front [r [rest [-> [_ [_ [_ [-> ->]]]]]]]].
  exists front, r, rest. split; [reflexivity|]. split; [reflexivity|].
  replace (front ++ r :: rest) with ((front ++ [r]) ++ rest) in Hpage
    by (rewrite <- app_assoc; reflexivity).
  apply append_only_app in Hpage. destruct Hpage as [Hread _].
  pose proof (collect_append_only (front ++ [r]) [] Hread) as H.
  unfold shown_after in H. rewrite fold_left_app in H. simpl in H.
  exact H.
Qed.

(** The growing listing: the set is that of its third turn. *)
Lemma collect_of_append_only_listing_witness :
  exists front r rest,
    growing_listing = front ++ r :: rest /\ 3%nat = S (length front) /\
    collect [Listing.mk "A" "LocX" "https://ycombinator.com/companies/a";
             Listing.mk "A" "LocX" "https://ycombinator.com/companies/a";
             Listing.mk "B" "LocY" "https://ycombinator.com/companies/b";
             Listing.mk "A" "LocX" "https://ycombinator.com/companies/a";
             Listing.mk "B" "LocY" "https://ycombinator.com/companies/b"]
    = collect (scan_companies (companies r)).
Proof.
  apply (collect_of_append_only_listing growing_listing).
  - simpl. repeat split.
    + exists [listing_A]. reflexivity.
    + exists [listing_B]. reflexivity.
    + exists []. reflexivity.
  - reflexivity.
Defined.

(** ** The links and the persons of a page *)

Lemma push_hrefs_acc (anchors : list (option string)) :
  forall links, push_hrefs anchors links = links ++ flat_map kept_href anchors.
Proof.
  induction anchors as [|href anchors IH]; intros links; simpl.
  - now rewrite app_nil_r.
  - rewrite IH. destruct href as [h|]; simpl; [|reflexivity].
    destruct (h =? EmptyString)%string; simpl; [reflexivity|].
    now rewrite <- app_assoc.
Qed.

(** X7. The links of a person are the [href] values of the anchors, in
    the order of the anchors, without those that are absent or empty: a link
    is in the list exactly when some anchor carries it and it is not empty. *)
Theorem links_are_the_nonempty_hrefs (anchors : list (option string)) :
  push_hrefs anchors [] = flat_map kept_href anchors /\
  (forall l, In l (push_hrefs anchors []) <->
             In (Some l) anchors /\ l <> EmptyString) /\
  (length (push_hrefs anchors []) <= length anchors)%nat.
Proof.
  rewrite push_hrefs_acc. simpl. split; [reflexivity|]. split.
  - intros l. rewrite in_flat_map. split.
    + intros [[h|] [Hin Hl]]; simpl in Hl; [|destruct Hl].
      destruct (h =? EmptyString)%string eqn:Hh; [destruct Hl|].
      destruct Hl as [<- | []]. apply String.eqb_neq in Hh. auto.
    + intros [Hin Hne]. exists (Some l). split; [exact Hin|]. simpl.
      apply String.eqb_neq in Hne. rewrite Hne. now left.
  - induction anchors as [|[h|] anchors IH]; simpl; [lia | | lia].
    destruct (h =? EmptyString)%string; simpl; lia.
Qed.

(** X8. The loop over the cards throws exactly when some card is
    detached, whatever was read from the cards before it; otherwise it
    returns the persons it started with followed by at most one person per
    card. *)
Theorem scan_cards_throws_on_detached (cards : list Card)
    (founderList : list Founder.t) :
  (scan_cards cards founderList = Thrown <-> In Card_detached cards) /\
  (forall result,
     scan_cards cards founderList = Returned result ->
     exists added,
       result = founderList ++ added /\ (length added <= length cards)%nat).
Proof.
  revert founderList. induction cards as [|card cards IH]; intros founderList.
  - simpl. split.
    + split; [discriminate | intros []].
    + intros result H. injection H as <-. exists []. now rewrite app_nil_r.
  - destruct card as [nameElement socials|].
    + assert (Hstep :
        exists acc extra,
          scan_cards (Card_dom nameElement socials :: cards) founderList
          = scan_cards cards acc /\
          acc = founderList ++ extra /\ (length extra <= 1)%nat).
      { simpl. destruct socials as [anchors|], nameElement as [[n|]|];
          try (exists founderList, []; rewrite app_nil_r; simpl; auto; fail).
        simpl. destruct (n =? EmptyString)%string; simpl.
        - exists founderList, []. rewrite app_nil_r. simpl. auto.
        - eexists _, [_]. simpl. auto. }
      destruct Hstep as [acc [extra [-> [-> Hlen]]]].
      destruct (IH (founderList ++ extra)) as [Hthrow Hret]. split.
      * rewrite Hthrow. split; [now right|]. intros [H | H]; [discriminate | exact H].
      * intros result Hres. destruct (Hret _ Hres) as [added [-> Hadded]].
        exists (extra ++ added). rewrite app_assoc. split; [reflexivity|].
        rewrite length_app. simpl. lia.
    + simpl. split.
      * split; auto.
      * discriminate.
Qed.

(** ** What the fetcher costs and what it leaves behind *)

Section FetcherBudget.

Variable web : Web.

(** An attempt asks for one page and touches no page that was open; it
    leaves its own page open only when it throws. *)
Lemma attempt_frame (companyLink : string) (b : Browser) :
  exists outcome b',
    attempt web companyLink b = (outcome, b') /\
    newPage_calls b' = S (newPage_calls b) /\
    (open_pages b' = open_pages b \/
     outcome = Thrown /\
     exists url, open_pages b' = (newPage_calls b, url) :: open_pages b).
Proof.
  rewrite attempt_run. cbv zeta.
  destruct (newPage_ok web (newPage_calls b));
    [destruct (visit web (newPage_calls b) companyLink) as [| |cards];
     [| |destruct (scan_cards cards [])]|];
    (eexists _, _; split; [reflexivity|]; split; [reflexivity|];
     first [ left; reflexivity
           | right; split; [reflexivity | eexists; reflexivity] ]).
Qed.

Lemma retry_loop_budget (companyLink : string) (maxRetries : Z) (fuel : nat) :
  forall (retries : Z) (b b' : Browser) (founderData : option (list Founder.t)),
    retry_loop web fuel companyLink maxRetries retries b
    = Some (founderData, b') ->
    (newPage_calls b <= newPage_calls b'
     <= newPage_calls b + Z.to_nat (maxRetries - retries))%nat /\
    (retries < maxRetries -> (newPage_calls b < newPage_calls b')%nat) /\
    exists leaked,
      open_pages b' = leaked ++ open_pages b /\
      Forall (fun p => (newPage_calls b <= fst p < newPage_calls b')%nat) leaked /\
      (length leaked + match founderData with Some _ => 1 | None => 0 end
       <= newPage_calls b' - newPage_calls b)%nat.
Proof.
  induction fuel as [|fuel IH]; intros retries b b' founderData; simpl.
  - destruct (retries <? maxRetries) eqn:Hlt; [discriminate|].
    apply Z.ltb_ge in Hlt. intros H. injection H as <- <-.
    split; [lia|]. split; [lia|]. exists []. repeat split; auto. simpl. lia.
  - destruct (retries <? maxRetries) eqn:Hlt.
    + apply Z.ltb_lt in Hlt.
      destruct (attempt_frame companyLink b) as [outcome [b1 [Hrun [Hcalls Hpages]]]].
      rewrite Hrun. destruct outcome as [r|].
      * intros H. injection H as <- <-.
        destruct Hpages as [Hsame | [Habs _]]; [|discriminate].
        split; [lia|]. split; [lia|]. exists []. split; [exact Hsame|].
        split; [constructor|]. simpl. destruct r; lia.
      * intros Hloop. apply IH in Hloop.
        destruct Hloop as [Hup [_ [leaked [Hopen [Hrange Hlen]]]]].
        split; [lia|]. split; [lia|].
        destruct Hpages as [Hsame | [_ [url Hleft]]].
        -- exists leaked. rewrite Hopen, Hsame. split; [reflexivity|]. split.
           ++ eapply Forall_impl; [|exact Hrange]. simpl. intros p Hp. lia.
           ++ lia.
        -- exists (leaked ++ [(newPage_calls b, url)]).
           rewrite Hopen, Hleft, <- app_assoc. split; [reflexivity|]. split.
           ++ apply Forall_app. split.
              ** eapply Forall_impl; [|exact Hrange]. simpl. intros p Hp. lia.
              ** constructor; [simpl; lia | constructor].
           ++ rewrite length_app. simpl. lia.
    + apply Z.ltb_ge in Hlt. intros H. injection H as <- <-.
      split; [lia|]. split; [lia|]. exists []. repeat split; auto. simpl. lia.
Qed.


(** The loop of [main] asks for one to three pages per record. *)
Lemma enrich_budget (companyList : list Company.t) :
  forall (companyList' : list Company.t) (stream stream' : list string)
         (b b' : Browser),
    enrich web companyList stream b = Some (companyList', stream', b') ->
    (newPage_calls b + length companyList <= newPage_calls b'
     <= newPage_calls b + 3 * length companyList)%nat.
Proof.
  induction companyList as [|company rest IH];
    intros companyList' stream stream' b b'; simpl.
  - intros H. injection H as _ _ <-. lia.
  - unfold enrich_one.
    destruct (getFoundersDataWithRetries web b (Company.link company)
                default_maxRetries) as [[founderData b1]|] eqn:Hfetch;
      [|discriminate].
    unfold getFoundersDataWithRetries in Hfetch.
    pose proof (retry_loop_budget _ _ _ _ _ _ _ Hfetch) as [Hup [Hlow _]].
    specialize (Hlow ltac:(reflexivity)). simpl in Hup.
    destruct founderData as [founders|];
      (destruct (enrich web rest _ b1) as [[[rest' s2] b2]|] eqn:Hrest;
       [|discriminate]);
      intros H; injection H as _ _ <-; apply IH in Hrest; lia.
Qed.

(** X10. A run that completes wrote the file [company_data_YC_W23.json],
    asked the browser for the listing page and for one to three pages per
    record of the set, and left no page open. *)
Theorem run_budget (session : Session) (path file : string)
    (companyList : list Company.t) (b : Browser) :
  main web session = Completed path file companyList b ->
  path = "company_data_YC_W23.json"%string /\
  open_pages b = [] /\
  (1 + length companyList <= newPage_calls b <= 1 + 3 * length companyList)%nat.
Proof.
  unfold main. intros Hrun.
  destruct (launch_ok session); [|discriminate].
  unfold browser_newPage in Hrun. cbv zeta in Hrun.
  cbn [newPage_calls open_pages] in Hrun.
  destruct (newPage_ok web 0); [|discriminate].
  destruct (listing_goto_ok session); [|discriminate].
  destruct (getCompanies (listing session)) as [emissions n | |] eqn:Htraversal;
    try discriminate.
  match type of Hrun with
  | context [enrich web (collect emissions) ?s ?b0] =>
      destruct (enrich web (collect emissions) s b0)
        as [[[companyList' stream'] b1]|] eqn:Hloop; [|discriminate]
  end.
  injection Hrun as <- _ <- <-.
  pose proof (enrich_budget _ _ _ _ _ _ Hloop) as Hcalls.
  destruct (enrich_stream web _ _ _ _ _ _ Hloop) as [Hkeys _].
  apply (f_equal (@length _)) in Hkeys. rewrite !length_map in Hkeys.
  simpl in Hcalls. split; [reflexivity|]. split; [reflexivity|].
  simpl. lia.
Qed.

End FetcherBudget.


(** The run over the short listing, at the site where only the page of A
    loads: one page for the listing, one for A, three for B. *)
Lemma run_budget_witness :
  output_path = "company_data_YC_W23.json"%string /\
  open_pages {| newPage_calls := 5; open_pages := [] |} = [] /\
  (1 + length [company_A [founder_Jo]; company_B]
   <= newPage_calls {| newPage_calls := 5; open_pages := [] |}
   <= 1 + 3 * length [company_A [founder_Jo]; company_B])%nat.
Proof.
  apply (run_budget one_of_two short_session output_path
           ("[" ++ newline ++ record_line (company_A [founder_Jo]) ++ "]")).
  vm_compute. reflexivity.
Defined.

(** ** How a run ends *)

(** The four statements about a run, once the run is known. *)
Ltac run_case :=
  intros;
  repeat match goal with
         | H : _ /\ _ |- _ => destruct H
         | H : exists _, _ |- _ => destruct H
         end;
  try discriminate;
  try match goal with
      | H : Aborted _ = Aborted _ |- _ => injection H as <-
      end;
  try (repeat split; reflexivity);
  eauto 10.

Ltac run_cases :=
  split; [split; run_case
         | split; [split; run_case
                  | split; [split; run_case | run_case]]].

Section RunFacts.

Variable web : Web.

(** X11. A run completes, and writes its file, exactly when the browser
    launches, the listing page opens and loads, and the traversal halts; it
    has no end exactly when the traversal has none.  Nothing the detail pages
    do changes that.  A run aborted after the launch has asked for the
    listing page only and leaves no page open. *)
Theorem run_outcome (session : Session) :
  ((exists path file companyList b,
      main web session = Completed path file companyList b) <->
   launch_ok session = true /\ newPage_ok web 0 = true /\
   listing_goto_ok session = true /\
   exists ys n, getCompanies (listing session) = Halted ys n) /\
  (main web session = Unfinished <->
   launch_ok session = true /\ newPage_ok web 0 = true /\
   listing_goto_ok session = true /\
   exists ys n, getCompanies (listing session) = Pending ys n) /\
  (main web session = Aborted None <-> launch_ok session = false) /\
  (forall b, main web session = Aborted (Some b) ->
             open_pages b = [] /\ newPage_calls b = 1%nat).
Proof.
  unfold main, browser_newPage. cbv zeta. cbn [newPage_calls open_pages].
  destruct (launch_ok session); [|run_cases].
  destruct (newPage_ok web 0); [|run_cases].
  destruct (listing_goto_ok session); [|run_cases].
  destruct (getCompanies (listing session)) as [ys n | ys n | ys n];
    [|run_cases|run_cases].
  match goal with
  | |- context [enrich web (collect ys) ?s ?b0] =>
      destruct (enrich_total web (collect ys) s b0)
        as [cl' [stream' [b1 ->]]]
  end.
  run_cases.
Qed.

(** X12. The loop writes as it goes: after the first records of the set,
    the stream holds what it held before followed by their lines, and the
    rest of the loop only appends to it.  The run over the whole set is the
    run over the first records followed by the run over the others. *)
Theorem enrich_streams (front back all' : list Company.t)
    (stream stream' : list string) (b b' : Browser) :
  enrich web (front ++ back) stream b = Some (all', stream', b') ->
  exists front' stream1 b1 back' written later,
    enrich web front stream b = Some (front', stream1, b1) /\
    enrich web back stream1 b1 = Some (back', stream', b') /\
    all' = front' ++ back' /\
    stream1 = stream ++ written /\ (length written <= length front)%nat /\
    stream' = stream1 ++ later /\
    file_of stream' = (file_of stream1 ++ file_of later)%string.
Proof.
  rewrite enrich_app.
  destruct (enrich web front stream b) as [[[front' stream1] b1]|] eqn:Hfront;
    [|discriminate].
  destruct (enrich web back stream1 b1) as [[[back' stream2] b2]|] eqn:Hback;
    [|discriminate].
  intros H. injection H as <- <- <-.
  destruct (enrich_stream web _ _ _ _ _ _ Hfront) as [_ [written [Hs1 [Hl1 _]]]].
  destruct (enrich_stream web _ _ _ _ _ _ Hback) as [_ [later [Hs2 _]]].
  exists front', stream1, b1, back', written, later.
  repeat split; auto. rewrite Hs2. apply file_of_app.
Qed.

End RunFacts.

(** The loop over A then B, at the site where only the page of A loads. *)
Lemma enrich_streams_witness :
  exists front' stream1 b1 back' written later,
    enrich one_of_two [company_A []] ["["%string] launched
      = Some (front', stream1, b1) /\
    enrich one_of_two [company_B] stream1 b1
      = Some (back', ["["%string; record_line (company_A [founder_Jo])],
              {| newPage_calls := 4;
                 open_pages := [(3, "about:blank"); (2, "about:blank");
                                (1, "about:blank")]%nat%string |}) /\
    [company_A [founder_Jo]; company_B] = front' ++ back' /\
    stream1 = ["["%string] ++ written /\
    (length written <= length [company_A []])%nat /\
    ["["%string; record_line (company_A [founder_Jo])] = stream1 ++ later /\
    file_of ["["%string; record_line (company_A [founder_Jo])]
    = (file_of stream1 ++ file_of later)%string.
Proof.
  apply (enrich_streams one_of_two [company_A []] [company_B]).
  vm_compute. reflexivity.
Defined.

(** ** The lines of the file *)

Lemma printable_app (a b : string) :
  printable a -> printable b -> printable (a ++ b).
Proof.
  unfold printable. intros Ha Hb. rewrite chars_app, forallb_app, Ha, Hb.
  reflexivity.
Qed.

Lemma quote_code_unit_printable (c : ascii) : printable (quote_code_unit c).
Proof. destruct c as [[] [] [] [] [] [] [] []]; reflexivity. Qed.

Lemma QuoteJSONString_printable (s : string) : printable (QuoteJSONString s).
Proof.
  unfold QuoteJSONString.
  apply (printable_app (String DQUOTE EmptyString)); [reflexivity|].
  apply printable_app; [|reflexivity].
  induction s as [|c s IH]; simpl; [reflexivity|].
  apply printable_app; [apply quote_code_unit_printable | exact IH].
Qed.

Lemma join_comma_printable (items : list string) :
  Forall printable items -> printable (join_comma items).
Proof.
  induction items as [|x items IH]; intros Hall; [reflexivity|].
  inversion Hall as [|? ? Hx Hrest]; subst.
  destruct items as [|y items]; [exact Hx|].
  rewrite join_comma_cons. apply printable_app; [exact Hx|].
  apply (printable_app ","); [reflexivity | exact (IH Hrest)].
Qed.

Lemma stringify_array_printable (items : list string) :
  Forall printable items -> printable (stringify_array items).
Proof.
  intros Hall. unfold stringify_array.
  apply (printable_app "["); [reflexivity|].
  apply printable_app; [now apply join_comma_printable | reflexivity].
Qed.

Lemma stringify_object_printable (properties : list (string * string)) :
  Forall (fun kv => printable (snd kv)) properties ->
  printable (stringify_object properties).
Proof.
  intros Hall. unfold stringify_object.
  apply (printable_app "{"); [reflexivity|].
  apply printable_app; [|reflexivity].
  apply join_comma_printable. apply Forall_forall. intros x Hx.
  apply in_map_iff in Hx. destruct Hx as [[k v] [<- Hin]].
  rewrite Forall_forall in Hall. specialize (Hall _ Hin). simpl in *.
  apply printable_app; [apply QuoteJSONString_printable|].
  apply (printable_app ":"); [reflexivity | exact Hall].
Qed.

Lemma stringify_founder_printable (f : Founder.t) :
  printable (stringify_founder f).
Proof.
  apply stringify_object_printable.
  repeat (apply Forall_cons; [cbn [snd]|]); [| |apply Forall_nil].
  - apply QuoteJSONString_printable.
  - apply stringify_array_printable. apply Forall_forall. intros x Hx.
    apply in_map_iff in Hx. destruct Hx as [l [<- _]].
    apply QuoteJSONString_printable.
Qed.

Lemma JSON_stringify_printable (company : Company.t) :
  printable (JSON_stringify company).
Proof.
  apply stringify_object_printable.
  repeat (apply Forall_cons; [cbn [snd]|]); [| | | |apply Forall_nil];
    try apply QuoteJSONString_printable.
  apply stringify_array_printable. apply Forall_forall. intros x Hx.
  apply in_map_iff in Hx. destruct Hx as [f [<- _]].
  apply stringify_founder_printable.
Qed.

Lemma printable_no_LF (s : string) :
  printable s -> count_occ ascii_dec (chars s) LF = O.
Proof.
  unfold printable. induction (chars s) as [|c l IH]; simpl; [reflexivity|].
  intros H. apply andb_true_iff in H. destruct H as [Hc Hl].
  destruct (ascii_dec c LF) as [-> | _]; [discriminate Hc | exact (IH Hl)].
Qed.

(** X13. A serialized record is a JSON value, and a JSON text on its own,
    whatever bytes its fields hold: quotes, backslashes and control bytes are
    escaped. *)
Theorem record_is_json (company : Company.t) :
  json_value (chars (JSON_stringify company)) /\
  valid_JSON (JSON_stringify company).
Proof.
  pose proof (JSON_stringify_value company) as Hv. split; [exact Hv|].
  exists [], (chars (JSON_stringify company)), [].
  repeat split; [exact Hv|]. simpl. now rewrite app_nil_r.
Qed.

(** X14. A serialized record holds no control byte, so no line feed: in
    the file, every record sits alone on its line, and a file of N records
    holds N + 1 line feeds. *)
Theorem file_has_one_record_per_line (records : list Company.t) :
  Forall (fun c => printable (JSON_stringify c)
                   /\ ~ In LF (chars (JSON_stringify c))) records /\
  count_occ ascii_dec
    (chars ("[" ++ newline ++ file_of (map record_line records) ++ "]")) LF
  = S (length records).
Proof.
  split.
  - apply Forall_forall. intros c _.
    pose proof (JSON_stringify_printable c) as Hp. split; [exact Hp|].
    apply (count_occ_not_In ascii_dec). now apply printable_no_LF.
  - rewrite !chars_app, !count_occ_app. simpl count_occ at 1 2 4.
    assert (Hlines :
      count_occ ascii_dec (chars (file_of (map record_line records))) LF
      = length records).
    { induction records as [|c records IH]; [reflexivity|].
      cbn [map file_of length]. unfold record_line at 1.
      rewrite !chars_app, !count_occ_app, IH.
      rewrite (printable_no_LF _ (JSON_stringify_printable c)). reflexivity. }
    rewrite Hlines. lia.
Qed.

(** ** What the loop does to the set *)

Section SetFacts.

Variable web : Web.

(** X15. The loop of [main] changes nothing of the set but [founders]: the
    records keep their number, their order and their three listing fields,
    and each record is either as it was or holds a list of founders that is
    not empty. *)
Theorem enrich_keeps_the_set (companyList : list Company.t) :
  forall (companyList' : list Company.t) (stream stream' : list string)
         (b b' : Browser),
    enrich web companyList stream b = Some (companyList', stream', b') ->
    Forall2 (fun c c' => listing_of c' = listing_of c /\
                         (c' = c \/ has_founders c' = true))
            companyList companyList'.
Proof.
  induction companyList as [|company rest IH];
    intros companyList' stream stream' b b'; simpl.
  - intros H. injection H as <- _ _. constructor.
  - destruct (enrich_one web company stream b) as [[[c' s1] b1]|] eqn:Hone;
      [|discriminate].
    destruct (enrich web rest s1 b1) as [[[rest' s2] b2]|] eqn:Hrest;
      [|discriminate].
    intros H. injection H as <- _ _.
    constructor; [|exact (IH _ _ _ _ _ Hrest)].
    apply enrich_one_stream in Hone. destruct Hone as [Hkey [[-> _] | [Hf _]]];
      auto.
Qed.

End SetFacts.

(** The loop over A then B, at the site where only the page of A loads. *)
Lemma enrich_keeps_the_set_witness :
  Forall2 (fun c c' => listing_of c' = listing_of c /\
                       (c' = c \/ has_founders c' = true))
          [company_A []; company_B] [company_A [founder_Jo]; company_B].
Proof.
  apply (enrich_keeps_the_set one_of_two [company_A []; company_B]
           [company_A [founder_Jo]; company_B] ["["%string]
           ["["%string; record_line (company_A [founder_Jo])] launched
           {| newPage_calls := 4;
              open_pages := [(3, "about:blank"); (2, "about:blank");
                             (1, "about:blank")]%nat%string |}).
  vm_compute. reflexivity.
Defined.
